(** * trunk-indexer: the Kaldi decode extension ([trunkindexer/kaldi.cc])

    A shallow embedding of the Python extension module that decodes one
    8 kHz wav file with Kaldi's online nnet3 pipeline, and the properties
    of its orchestration code: the log trap ([errlog], [trap]), the
    decoding routine ([basic]) and the Python entry point ([decode]).

    Kaldi, OpenFst and CPython are libraries the file calls into.  They
    are represented by an environment [Env]: a deterministic oracle that
    tells, for every library call, which messages the call hands to
    Kaldi's logging layer and whether it returns or throws an exception
    derived from [std::exception].  Every statement below is quantified
    over all such environments.  A library call that terminates the
    process (a failed [KALDI_ASSERT] ends in [abort()]), and what a
    library prints without going through Kaldi's logging layer, are
    outside this model. *)

From stdpp Require Import gmap strings list pretty.

Open Scope string_scope.
Open Scope Z_scope.
Open Scope list_scope.

(** ** C strings

    [std::string] values are Rocq strings.  A [const char*] read by a
    callee stops at the first NUL byte: [c_str] is what
    [std::string::c_str()] shows to [PyErr_SetString] or
    [PyUnicode_FromString], and what [operator+=] appends from a [const char*] argument. *)

Fixpoint c_str (s : string) : string :=
  match s with
  | EmptyString => EmptyString
  | String c r => if Ascii.eqb c Ascii.zero then EmptyString else String c (c_str r)
  end.

Definition nul_free (s : string) : Prop := c_str s = s.

(** ** 32-bit integers ([kaldi::int32]) *)

Definition INT32_MAX : Z := 2147483647.

Definition wrap32 (z : Z) : Z := (z + 2147483648) `mod` 4294967296 - 2147483648.

(** ** Data model *)

(** [kaldi::BaseFloat] is a 32-bit float.  The extension never computes
    with samples; it only hands them to the engine, so a value is kept as
    its bit pattern. *)
Definition BaseFloat : Type := Z.

Inductive Severity : Type :=
| kAssertFailed
| kError
| kWarning
| kInfo
| kVerbose (level : positive).

Record LogMessageEnvelope : Type := { severity : Severity }.

Definition LogMessage : Type := LogMessageEnvelope * string.

(** Every exception the libraries throw derives from [std::exception];
    the handler of [decode] only reads [what()]. *)
Record Exn : Type := std_exception { what : string }.

(** [fst::SymbolTable]: ids to display strings.  [Find] returns the empty
    string for an id that is not in the table. *)
Record SymbolTable : Type := { sym_addr : nat; symbols : gmap Z string }.

Definition Find (t : gmap Z string) (key : Z) : string := default "" (t !! key).

(** [kaldi::WaveData].  [Data] is channel 0 of the sample matrix, the row
    line 111 selects. *)
Record WaveData : Type := { Data : list BaseFloat; SampFreq : BaseFloat }.

(** [data.Dim()] *)
Definition Dim (data : list BaseFloat) : Z := Z.of_nat (length data).

(** [SubVector<BaseFloat>(data, origin, length)] *)
Definition SubVector (data : list BaseFloat) (origin len : Z) : list BaseFloat :=
  take (Z.to_nat len) (drop (Z.to_nat origin) data).

(** The calls [basic] makes into Kaldi and OpenFst, in the order of the
    source.  Default constructors of plain option structs (lines 46-75,
    81-82, 106, 147-158) carry no file or data and are left out. *)
Inductive Call : Type :=
| ReadKaldiObject (rxfilename : string)
| InputOpen (rxfilename : string)
| TransitionModelRead
| AmNnetRead
| SetBatchnormTestMode
| SetDropoutTestMode
| CollapseModel
| NewDecodableInfo
| ReadFstKaldiGeneric (rxfilename : string)
| SymbolTableReadText (filename : string)
| NewWavReader (rspecifier : string)
| NewAdaptationState
| WavReaderValue (key : string)
| NewFeaturePipeline
| SetAdaptationState
| NewDecoder
| NewTimer (utterance_id : string)
| AcceptWaveform (samp_freq : BaseFloat) (wave_part : list BaseFloat)
| WaitUntil (samp_offset : Z) (samp_freq : BaseFloat)
| InputFinished
| AdvanceDecoding
| FinalizeDecoding
| GetLattice
| CompactLatticeShortestPath
| ConvertLattice
| GetLinearSymbolSequence.

#[global] Instance Call_eq_dec : EqDecision Call.
Proof. solve_decision. Defined.

(** What one library call does besides returning: the messages it logs
    and the exception it throws, if any. *)
Record Outcome : Type := { logs : list LogMessage; raised : option Exn }.

(** Python side. *)
Inductive PyObject : Type :=
| PyUnicode (utf8 : string)
| PyLong (z : Z)
| PyNone.

Inductive PyExc : Type :=
| PyExc_RuntimeError
| PyExc_TypeError
| PyExc_ValueError
| PyExc_UnicodeDecodeError.

(** An exception in the error indicator: its class and its text. *)
Definition PyErr : Type := PyExc * string.

(** The environment of one process: model directory, audio files, engine
    and host interpreter.  The engine objects of a decoding session are
    locals of [basic]; the answer to a call depends on the calls made on
    them so far. *)
Record Env : Type := {
  respond : list Call -> Call -> Outcome;
  (** [what()] of the exception [KALDI_ERR] throws for a message *)
  fatal_what : string -> string;
  (** [SymbolTable::ReadText]: the table of a file, or NULL *)
  symbol_file : string -> option (gmap Z string);
  (** [wav_reader.Value(key)] for a reader opened on an rspecifier *)
  wave_file : string -> string -> WaveData;
  (** word ids [GetLinearSymbolSequence] reads off the best path *)
  best_path_words : list Call -> list Z;
  (** the error [PyArg_ParseTuple] sets for arguments it rejects *)
  arg_error : list PyObject -> PyErr;
  (** [PyUnicode_FromString]: the error for bytes that are not UTF-8 *)
  utf8_error : string -> option PyErr;
  (** [PyErr_SetString(exc, message)] for a message that is not UTF-8:
      the error the interpreter leaves in the indicator, which
      depending on its version is [exc] without a message or the
      decoding error *)
  undecodable : PyExc -> string -> PyErr
}.

(** The only handler the program installs. *)
Inductive LogHandler : Type := Trap.

(** ** Process state *)

Record State : Type := mkState {
  (** [std::string errlog], line 13 *)
  errlog : string;
  (** Kaldi's global handler pointer *)
  log_handler : option LogHandler;
  (** bytes written to [std::cerr] *)
  cerr : string;
  (** addresses of objects obtained with [new] and not yet deleted *)
  heap : gset nat;
  (** the interpreter's error indicator *)
  py_err : option PyErr;
  (** ghost: calls made on the engine objects of the running [basic] *)
  calls : list Call;
  (** ghost: every message handed to the logging layer so far *)
  emitted : list LogMessage
}.

Definition set_errlog (v : string) (s : State) : State :=
  mkState v (log_handler s) (cerr s) (heap s) (py_err s) (calls s) (emitted s).
Definition set_log_handler (v : option LogHandler) (s : State) : State :=
  mkState (errlog s) v (cerr s) (heap s) (py_err s) (calls s) (emitted s).
Definition set_cerr (v : string) (s : State) : State :=
  mkState (errlog s) (log_handler s) v (heap s) (py_err s) (calls s) (emitted s).
Definition set_heap (v : gset nat) (s : State) : State :=
  mkState (errlog s) (log_handler s) (cerr s) v (py_err s) (calls s) (emitted s).
Definition set_py_err (v : option PyErr) (s : State) : State :=
  mkState (errlog s) (log_handler s) (cerr s) (heap s) v (calls s) (emitted s).
Definition set_calls (v : list Call) (s : State) : State :=
  mkState (errlog s) (log_handler s) (cerr s) (heap s) (py_err s) v (emitted s).
Definition set_emitted (v : list LogMessage) (s : State) : State :=
  mkState (errlog s) (log_handler s) (cerr s) (heap s) (py_err s) (calls s) v.

(** The state of a freshly started interpreter. *)
Definition boot : State := mkState "" None "" ∅ None [] [].

(** ** Control: state, C++ exceptions, undefined behaviour *)

Inductive Res (A : Type) : Type :=
| Ret (a : A)
| Throw (e : Exn)
| Crash      (* undefined behaviour: a NULL pointer dereferenced *)
| Diverge.   (* the loop did not finish within its fuel *)
Arguments Ret {A} a.
Arguments Throw {A} e.
Arguments Crash {A}.
Arguments Diverge {A}.

Definition M (A : Type) : Type := State -> Res A * State.

Definition ret {A} (a : A) : M A := fun s => (Ret a, s).

Definition bind {A B} (m : M A) (f : A -> M B) : M B :=
  fun s =>
    match m s with
    | (Ret a, s') => f a s'
    | (Throw e, s') => (Throw e, s')
    | (Crash, s') => (Crash, s')
    | (Diverge, s') => (Diverge, s')
    end.

Definition throw {A} (e : Exn) : M A := fun s => (Throw e, s).
Definition crash {A} : M A := fun s => (Crash, s).
Definition diverge {A} : M A := fun s => (Diverge, s).

(** [try { m } catch (const std::exception& e) { h e }] *)
Definition try_catch {A} (m : M A) (h : Exn -> M A) : M A :=
  fun s =>
    match m s with
    | (Throw e, s') => h e s'
    | r => r
    end.

Definition modify (f : State -> State) : M unit := fun s => (Ret tt, f s).
Definition gets {A} (f : State -> A) : M A := fun s => (Ret (f s), s).

Notation "'do' x <- m ; k" := (bind m (fun x => k))
  (at level 10, x name, m at level 100, k at level 200).

(** ** The log trap (lines 13-26) *)

Definition trap (envelope : LogMessageEnvelope) (message : string) (s : State) : State :=
  match severity envelope with
  | kError | kAssertFailed => set_errlog (errlog s +:+ c_str message) s
  | _ => s
  end.

(** Kaldi's logging layer: a message goes to the installed handler; with
    no handler Kaldi prints it on [std::cerr] (its header is not
    modelled). *)
Definition log_message (s : State) (m : LogMessage) : State :=
  let s := set_emitted (emitted s ++ [m]) s in
  match log_handler s with
  | Some Trap => trap m.1 m.2 s
  | None => set_cerr (cerr s +:+ c_str m.2) s
  end.

Definition SetLogHandler (h : LogHandler) : M unit :=
  modify (set_log_handler (Some h)).

(** ** The program, over an environment *)

Section Program.
Context (E : Env).

(** One library call: it is recorded in the session history, its
    messages go through the logging layer in order, and it returns or
    throws. *)
Definition ecall (c : Call) : M unit :=
  fun s =>
    let o := respond E (calls s) c in
    let s1 := foldl log_message (set_calls (calls s ++ [c]) s) (logs o) in
    match raised o with
    | Some e => (Throw e, s1)
    | None => (Ret tt, s1)
    end.

(** [KALDI_ERR << message]: the message is logged with severity
    [kError], then a [std::exception] is thrown. *)
Definition KALDI_ERR {A} (message : string) : M A :=
  fun s =>
    (Throw (std_exception (fatal_what E message)),
     log_message s ({| severity := kError |}, message)).

(** A library function that returns an object it allocated with [new]. *)
Definition new_object : M nat :=
  fun s => let a := fresh (heap s) in (Ret a, set_heap ({[a]} ∪ heap s) s).

(** [delete p]; nothing happens for NULL. *)
Definition delete_object (p : option nat) : M unit :=
  match p with
  | Some a => modify (fun s => set_heap (heap s ∖ {[a]}) s)
  | None => ret tt
  end.

(** [ReadFstKaldiGeneric(rxfilename)], line 96 *)
Definition read_fst (rxfilename : string) : M nat :=
  do _ <- ecall (ReadFstKaldiGeneric rxfilename);
  new_object.

(** [fst::SymbolTable::ReadText(filename)], line 100: a new table, or
    NULL when the file cannot be read. *)
Definition read_text (filename : string) : M (option SymbolTable) :=
  do _ <- ecall (SymbolTableReadText filename);
  match symbol_file E filename with
  | Some t => do a <- new_object; ret (Some {| sym_addr := a; symbols := t |})
  | None => ret None
  end.

(** [word_syms->Find(key)], line 164 *)
Definition find_word (word_syms : option SymbolTable) (key : Z) : M string :=
  match word_syms with
  | Some t => ret (Find (symbols t) key)
  | None => crash
  end.

(** The chunk-feed loop, lines 128-144.  [fuel] bounds the number of
    iterations. *)
Fixpoint feed_loop (fuel : nat) (chunk_length : Z) (samp_freq : BaseFloat)
    (data : list BaseFloat) (samp_offset : Z) : M Z :=
  if samp_offset <? Dim data then
    match fuel with
    | O => diverge
    | S fuel' =>
        let samp_remaining := wrap32 (Dim data - samp_offset) in
        let num_samp :=
          if chunk_length <? samp_remaining then chunk_length else samp_remaining in
        let wave_part := SubVector data samp_offset num_samp in
        do _ <- ecall (AcceptWaveform samp_freq wave_part);
        let samp_offset := wrap32 (samp_offset + num_samp) in
        do _ <- ecall (WaitUntil samp_offset samp_freq);
        do _ <- (if samp_offset =? Dim data then ecall InputFinished else ret tt);
        do _ <- ecall AdvanceDecoding;
        feed_loop fuel' chunk_length samp_freq data samp_offset
    end
  else ret samp_offset.

(** The extraction loop, lines 163-168. *)
Fixpoint extract (word_syms : option SymbolTable) (words : list Z)
    (result : string) : M string :=
  match words with
  | [] => ret result
  | w :: rest =>
      do s <- find_word word_syms w;
      do _ <- (if String.eqb s ""
               then KALDI_ERR ("Word-id " +:+ pretty w +:+ " not in symbol table.")
               else ret tt);
      extract word_syms rest (result +:+ (s +:+ " "))
  end.

(** [basic], lines 31-173.  The loop gets one unit of fuel per sample:
    every iteration consumes at least one. *)
Definition basic (wavfile datadir : string) : M string :=
  (* the engine objects are locals: a new session starts here *)
  do _ <- modify (set_calls []);
  do _ <- SetLogHandler Trap;
  let word_syms_rxfilename := datadir +:+ "/words.txt" in
  let nnet3_rxfilename := datadir +:+ "/final.mdl" in
  let fst_rxfilename := datadir +:+ "/HCLG.fst" in
  let wav_rspecifier := "scp:echo foo " +:+ wavfile +:+ "|" in
  do _ <- ecall (ReadKaldiObject (datadir +:+ "/final.mat"));
  do _ <- ecall (ReadKaldiObject (datadir +:+ "/global_cmvn.stats"));
  do _ <- ecall (ReadKaldiObject (datadir +:+ "/final.dubm"));
  do _ <- ecall (ReadKaldiObject (datadir +:+ "/final.ie"));
  do _ <- ecall (InputOpen nnet3_rxfilename);
  do _ <- ecall TransitionModelRead;
  do _ <- ecall AmNnetRead;
  do _ <- ecall SetBatchnormTestMode;
  do _ <- ecall SetDropoutTestMode;
  do _ <- ecall CollapseModel;
  do _ <- ecall NewDecodableInfo;
  do decode_fst <- read_fst fst_rxfilename;
  do word_syms <-
    (if negb (String.eqb word_syms_rxfilename "") then
       do t <- read_text word_syms_rxfilename;
       match t with
       | Some _ => ret t
       | None =>
           KALDI_ERR ("Could not read symbol table from file "
                      +:+ word_syms_rxfilename)
       end
     else ret None);
  do _ <- ecall (NewWavReader wav_rspecifier);
  do _ <- ecall NewAdaptationState;
  do _ <- ecall (WavReaderValue "foo");
  let wave_data := wave_file E wav_rspecifier "foo" in
  let data := Data wave_data in
  do _ <- ecall NewFeaturePipeline;
  do _ <- ecall SetAdaptationState;
  do _ <- ecall NewDecoder;
  do _ <- ecall (NewTimer "foo");
  let samp_freq := SampFreq wave_data in
  let chunk_length := INT32_MAX in
  do _ <- feed_loop (length data) chunk_length samp_freq data 0;
  do _ <- ecall FinalizeDecoding;
  do _ <- ecall GetLattice;
  do _ <- ecall CompactLatticeShortestPath;
  do _ <- ecall ConvertLattice;
  do _ <- ecall GetLinearSymbolSequence;
  do words <- gets (fun s => best_path_words E (calls s));
  do result <- extract word_syms words "";
  do _ <- delete_object (Some decode_fst);
  do _ <- delete_object (sym_addr <$> word_syms);
  ret result.

(** ** The Python entry point, lines 175-196 *)

(** [PyArg_ParseTuple(args, "ss", ...)]: two [str] without an embedded
    NUL, or an error. *)
Definition PyArg_ParseTuple_ss (args : list PyObject) : option (string * string) :=
  match args with
  | [PyUnicode a; PyUnicode b] =>
      if String.eqb (c_str a) a && String.eqb (c_str b) b then Some (a, b) else None
  | _ => None
  end.

(** [PyErr_SetString(exc, message)]: the message is decoded as UTF-8,
    like the argument of [PyUnicode_FromString]; an error is set in
    either case. *)
Definition PyErr_SetString (exc : PyExc) (message : string) : M unit :=
  modify (set_py_err (Some (match utf8_error E message with
                            | None => (exc, message)
                            | Some _ => undecodable E exc message
                            end))).

(** [PyUnicode_FromString(u)]: a new [str], or NULL with an error set. *)
Definition PyUnicode_FromString (u : string) : M (option PyObject) :=
  match utf8_error E u with
  | Some err => do _ <- modify (set_py_err (Some err)); ret None
  | None => ret (Some (PyUnicode u))
  end.

Definition decode (args : list PyObject) : M (option PyObject) :=
  match PyArg_ParseTuple_ss args with
  | None => do _ <- modify (set_py_err (Some (arg_error E args))); ret None
  | Some (wavfile, datadir) =>
      try_catch
        (do result <- basic wavfile datadir;
         PyUnicode_FromString (c_str result))
        (fun e =>
           do _ <- modify (fun s => set_cerr (cerr s +:+ c_str (what e)) s);
           do log <- gets errlog;
           do _ <- PyErr_SetString PyExc_RuntimeError (c_str log);
           ret None)
  end.

End Program.

Arguments basic : simpl never.
Arguments decode : simpl never.

(** ** A small concrete environment

    A model directory with a three-word vocabulary, an engine whose best path is a given word sequence once the
    search has advanced, and at most one failing library call. *)

Module Demo.

Definition quiet : Outcome := {| logs := []; raised := None |}.

(** A Kaldi failure: a warning, the error text, then the exception. *)
Definition kaldi_failure (text : string) : Outcome :=
  {| logs := [({| severity := kWarning |}, "trying to recover");
              ({| severity := kError |}, text)];
     raised := Some (std_exception "kaldi::KaldiFatalError") |}.

(** A failure that never reaches the logging layer. *)
Definition silent_failure : Outcome :=
  {| logs := []; raised := Some (std_exception "std::bad_alloc") |}.

Definition vocabulary : gmap Z string := {[ 1 := "foo"; 2 := "bar"; 3 := "baz" ]}.

(** 8000.0 as a 32-bit float *)
Definition freq_8k : BaseFloat := 1174011904.

Definition engine (fault : option (Call * Outcome)) (table : option (gmap Z string))
    (audio : list BaseFloat) (words : list Z) : Env :=
  {| respond := fun _ c =>
       match fault with
       | Some (c', o) => if decide (c = c') then o else quiet
       | None => quiet
       end;
     fatal_what := fun _ => "kaldi::KaldiFatalError";
     symbol_file := fun _ => table;
     wave_file := fun _ _ => {| Data := audio; SampFreq := freq_8k |};
     best_path_words := fun h => if decide (AdvanceDecoding ∈ h) then words else [];
     arg_error := fun _ => (PyExc_TypeError, "function takes exactly 2 arguments");
     utf8_error := fun _ => None;
     undecodable := fun exc _ => (exc, "") |}.

Definition args : list PyObject := [PyUnicode "utt.wav"; PyUnicode "model"].

(** matching audio for "foo bar" *)
Definition good : Env := engine None (Some vocabulary) [12; -7; 3] [1; 2].

(** a corrupted acoustic model file *)
Definition corrupt : Env :=
  engine (Some (TransitionModelRead, kaldi_failure "Expected token <TransitionModel>"))
         (Some vocabulary) [12; -7; 3] [1; 2].

(** an allocation failure while the decoder is built *)
Definition out_of_memory : Env :=
  engine (Some (NewDecoder, silent_failure)) (Some vocabulary) [12; -7; 3] [1; 2].

(** the best path uses id 4, which words.txt does not list *)
Definition mismatch : Env := engine None (Some vocabulary) [12; -7; 3] [1; 4].

(** a wav file with no samples *)
Definition silence : Env := engine None (Some vocabulary) [] [].

(** a model directory whose words.txt cannot be read *)
Definition no_vocabulary : Env := engine None None [12; -7; 3] [1; 2].

(** Byte 0xFF occurs in no UTF-8 text. *)
Fixpoint has_ff (u : string) : bool :=
  match u with
  | EmptyString => false
  | String c r => Ascii.eqb c (Ascii.ascii_of_nat 255) || has_ff r
  end.

(** a corrupted acoustic model file whose error text holds a byte that
    is not UTF-8, under an interpreter that rejects such text and leaves
    the exception without a message *)
Definition garbled : Env :=
  let E := engine (Some (TransitionModelRead,
                         kaldi_failure (String (Ascii.ascii_of_nat 255) "bad token")))
                  (Some vocabulary) [12; -7; 3] [1; 2] in
  {| respond := respond E;
     fatal_what := fatal_what E;
     symbol_file := symbol_file E;
     wave_file := wave_file E;
     best_path_words := best_path_words E;
     arg_error := arg_error E;
     utf8_error := fun u =>
       if has_ff u
       then Some (PyExc_UnicodeDecodeError, "'utf-8' codec can't decode byte 0xff")
       else None;
     undecodable := fun exc _ => (exc, "") |}.

End Demo.

(** * Vocabulary of the statements *)

(** ** Observations *)

(** The samples [basic] decodes for a wav file name (lines 44, 110-111). *)
Definition utterance (E : Env) (wavfile : string) : list BaseFloat :=
  Data (wave_file E ("scp:echo foo " +:+ wavfile +:+ "|") "foo").

(** What the trap keeps of a list of messages: the texts of those with
    severity error or assert-failed, in order. *)
Definition retained (l : list LogMessage) : string :=
  foldr (fun m acc =>
           match severity m.1 with
           | kError | kAssertFailed => c_str m.2 +:+ acc
           | _ => acc
           end) "" l.

(** The display strings of the words, each followed by one space. *)
Definition transcript (t : gmap Z string) (words : list Z) : string :=
  foldr (fun w r => (Find t w +:+ " ") +:+ r) "" words.

(** The text of the fatal error of line 166. *)
Definition not_in_table (w : Z) : string :=
  "Word-id " +:+ pretty w +:+ " not in symbol table.".

(** The calls of the loop: with [chunk_length] at the largest [int32],
    all the samples go in one chunk. *)
Definition feed_trace (samp_freq : BaseFloat) (data : list BaseFloat) : list Call :=
  match data with
  | [] => []
  | _ => [AcceptWaveform samp_freq data; WaitUntil (Dim data) samp_freq;
          InputFinished; AdvanceDecoding]
  end.

(** The calls of a decoding session that runs to its end. *)
Definition session_trace (E : Env) (wavfile datadir : string) : list Call :=
  let wave_data := wave_file E ("scp:echo foo " +:+ wavfile +:+ "|") "foo" in
  [ReadKaldiObject (datadir +:+ "/final.mat");
   ReadKaldiObject (datadir +:+ "/global_cmvn.stats");
   ReadKaldiObject (datadir +:+ "/final.dubm");
   ReadKaldiObject (datadir +:+ "/final.ie");
   InputOpen (datadir +:+ "/final.mdl");
   TransitionModelRead; AmNnetRead; SetBatchnormTestMode; SetDropoutTestMode;
   CollapseModel; NewDecodableInfo;
   ReadFstKaldiGeneric (datadir +:+ "/HCLG.fst");
   SymbolTableReadText (datadir +:+ "/words.txt");
   NewWavReader ("scp:echo foo " +:+ wavfile +:+ "|");
   NewAdaptationState; WavReaderValue "foo";
   NewFeaturePipeline; SetAdaptationState; NewDecoder; NewTimer "foo"]
  ++ feed_trace (SampFreq wave_data) (Data wave_data)
  ++ [FinalizeDecoding; GetLattice; CompactLatticeShortestPath; ConvertLattice;
      GetLinearSymbolSequence].

(** ** Invariants *)

(** [m] keeps the state inside [I], however it ends. *)
Definition preserves {A} (I : State -> Prop) (m : M A) : Prop :=
  forall s, I s -> I (m s).2.

(** An invariant the engine cannot break by logging or by taking one more
    call; [alloc_stable] and [free_stable] say the same of the allocator. *)
Record stable (I : State -> Prop) : Prop := {
  stable_log : forall s m, I s -> I (log_message s m);
  stable_calls : forall s c, I s -> I (set_calls (calls s ++ [c]) s)
}.

Definition alloc_stable (I : State -> Prop) : Prop :=
  forall s a, I s -> I (set_heap ({[a]} ∪ heap s) s).

Definition free_stable (I : State -> Prop) : Prop :=
  forall s a, I s -> I (set_heap (heap s ∖ {[a]}) s).

(** [trapped_since s0 s]: since [s0] the trap has been the handler,
    nothing was written to [std::cerr], the error indicator was not
    touched, and the sink gained exactly the retained text of the
    messages logged in between. *)
Definition trapped_since (s0 s : State) : Prop :=
  log_handler s = Some Trap /\ cerr s = cerr s0 /\ py_err s = py_err s0 /\
  exists l, emitted s = emitted s0 ++ l /\ errlog s = errlog s0 +:+ retained l.

(** [holds_until_return I m Q]: from a state in [I], [m] throws in a state
    in [I] or returns in a state in [Q]. *)
Definition holds_until_return {A} (I : State -> Prop) (m : M A)
    (Q : State -> Prop) : Prop :=
  forall s, I s ->
    match m s with
    | (Ret _, s') => Q s'
    | (Throw _, s') => I s'
    | _ => True
    end.

(** ** Session histories *)

(** [traces m t P]: [m] never runs into undefined behaviour and never
    exhausts its fuel; when it returns it has made exactly the calls [t]
    and its result satisfies [P]; when it throws it has made a prefix
    of [t]. *)
Definition traces {A} (m : M A) (t : list Call) (P : A -> Prop) : Prop :=
  forall s,
    match m s with
    | (Ret a, s') => calls s' = calls s ++ t /\ P a
    | (Throw _, s') => exists t', t' `prefix_of` t /\ calls s' = calls s ++ t'
    | _ => False
    end.

(** ** Two runs side by side *)




(** * Properties *)

(** ** Strings *)

Lemma append_cons (x : Ascii.ascii) (a b : string) :
  String x a +:+ b = String x (a +:+ b).
Proof. reflexivity. Qed.

Lemma append_nil_l (a : string) : "" +:+ a = a.
Proof. reflexivity. Qed.

Lemma append_nil_r (a : string) : a +:+ "" = a.
Proof. induction a as [|c a IH]; [done | by rewrite append_cons, IH]. Qed.

Lemma append_assoc (a b c : string) : a +:+ (b +:+ c) = (a +:+ b) +:+ c.
Proof. induction a as [|x a IH]; [done | by rewrite !append_cons, IH]. Qed.

Lemma c_str_idemp (a : string) : c_str (c_str a) = c_str a.
Proof.
  induction a as [|x a IH]; simpl; [done |].
  destruct (Ascii.eqb x Ascii.zero) eqn:Hx; simpl; [done |].
  by rewrite Hx, IH.
Qed.

Lemma nul_free_empty : nul_free "".
Proof. done. Qed.

Lemma nul_free_c_str (a : string) : nul_free (c_str a).
Proof. apply c_str_idemp. Qed.

Lemma nul_free_app (a b : string) : nul_free a -> nul_free b -> nul_free (a +:+ b).
Proof.
  unfold nul_free. intros Ha Hb.
  induction a as [|x a IH]; [done |].
  rewrite append_cons. simpl in *.
  destruct (Ascii.eqb x Ascii.zero); [done |].
  injection Ha as Ha. by rewrite IH.
Qed.

(** ** What the trap keeps *)

Lemma retained_app (l k : list LogMessage) :
  retained (l ++ k) = retained l +:+ retained k.
Proof.
  induction l as [|[[sev] m] l IH]; simpl; [done |].
  destruct sev; simpl; rewrite ?IH, ?append_assoc; done.
Qed.

Lemma retained_snoc (l : list LogMessage) (m : LogMessage) :
  retained (l ++ [m]) =
  match severity m.1 with
  | kError | kAssertFailed => retained l +:+ c_str m.2
  | _ => retained l
  end.
Proof.
  rewrite retained_app. destruct m as [[sev] m]. simpl.
  destruct sev; simpl; by rewrite ?append_nil_r.
Qed.

Lemma nul_free_retained (l : list LogMessage) : nul_free (retained l).
Proof.
  induction l as [|[[sev] m] l IH]; simpl; [done |].
  destruct sev; simpl; try done; apply nul_free_app; auto using nul_free_c_str.
Qed.

(** ** State invariants preserved by a computation *)

Lemma bind_modify {A} (f : State -> State) (k : M A) (s : State) :
  (do _ <- modify f; k) s = k (f s).
Proof. reflexivity. Qed.

Lemma preserves_ret {A} I (a : A) : preserves I (ret a).
Proof. by intros s. Qed.

Lemma preserves_bind {A B} I (m : M A) (f : A -> M B) :
  preserves I m -> (forall a, preserves I (f a)) -> preserves I (bind m f).
Proof.
  intros Hm Hf s Hs. unfold bind. specialize (Hm s Hs).
  destruct (m s) as [[a|e| |] s']; simpl in *; try done.
  by apply Hf.
Qed.

Lemma preserves_crash {A} I : preserves I (@crash A).
Proof. by intros s. Qed.

Lemma preserves_diverge {A} I : preserves I (@diverge A).
Proof. by intros s. Qed.

Lemma preserves_gets {A} I (f : State -> A) : preserves I (gets f).
Proof. by intros s. Qed.

Lemma stable_foldl_log I (l : list LogMessage) s :
  stable I -> I s -> I (foldl log_message s l).
Proof.
  intros HI. revert s. induction l as [|m l IH]; simpl; intros s Hs; [done |].
  apply IH. by apply stable_log.
Qed.

Section Preserved.
Context (E : Env) (I : State -> Prop) (HI : stable I).

Lemma preserves_ecall c : preserves I (ecall E c).
Proof.
  intros s Hs. unfold ecall.
  assert (I (foldl log_message (set_calls (calls s ++ [c]) s)
               (logs (respond E (calls s) c)))) as H.
  { apply stable_foldl_log; [done |]. by apply stable_calls. }
  by destruct (raised (respond E (calls s) c)).
Qed.

Lemma preserves_KALDI_ERR {A} msg : preserves I (@KALDI_ERR E A msg).
Proof. intros s Hs. simpl. by apply stable_log. Qed.

Lemma preserves_new_object : alloc_stable I -> preserves I new_object.
Proof. intros HA s Hs. simpl. by apply HA. Qed.

Lemma preserves_delete p : free_stable I -> preserves I (delete_object p).
Proof. intros HF. destruct p; intros s Hs; simpl; [by apply HF | done]. Qed.

Lemma preserves_read_fst f : alloc_stable I -> preserves I (read_fst E f).
Proof.
  intros HA.
  apply preserves_bind; [apply preserves_ecall | intros _; by apply preserves_new_object].
Qed.

Lemma preserves_read_text f : alloc_stable I -> preserves I (read_text E f).
Proof.
  intros HA.
  apply preserves_bind; [apply preserves_ecall | intros _].
  destruct (symbol_file E f); [| apply preserves_ret].
  apply preserves_bind; [by apply preserves_new_object | intros a; apply preserves_ret].
Qed.

Lemma preserves_find_word t w : preserves I (find_word t w).
Proof. destruct t; [apply preserves_ret | apply preserves_crash]. Qed.

Lemma preserves_feed_loop fuel chunk f data off :
  preserves I (feed_loop E fuel chunk f data off).
Proof.
  revert off. induction fuel as [|fuel IH]; intros off; simpl;
    destruct (off <? Dim data); try apply preserves_ret; try apply preserves_diverge.
  repeat (apply preserves_bind; [| intros _]);
    try apply preserves_ecall; [| apply IH].
  case_match; [apply preserves_ecall | apply preserves_ret].
Qed.

Lemma preserves_extract t words acc : preserves I (extract E t words acc).
Proof.
  revert acc. induction words as [|w words IH]; intros acc; simpl;
    [apply preserves_ret |].
  apply preserves_bind; [apply preserves_find_word | intros s0].
  apply preserves_bind; [| intros _; apply IH].
  case_match; [apply preserves_KALDI_ERR | apply preserves_ret].
Qed.

(** Once the handler is installed, [basic] keeps every stable invariant. *)
Lemma basic_preserves wavfile datadir s :
  alloc_stable I -> free_stable I ->
  I (set_log_handler (Some Trap) (set_calls [] s)) ->
  I (basic E wavfile datadir s).2.
Proof.
  intros HA HF. unfold basic, SetLogHandler. rewrite !bind_modify.
  generalize (set_log_handler (Some Trap) (set_calls [] s)).
  match goal with |- forall s0, _ -> I (?m s0).2 => change (preserves I m) end.
  repeat first
    [ apply preserves_ret
    | apply preserves_ecall
    | apply preserves_read_fst; assumption
    | apply preserves_read_text; assumption
    | apply preserves_feed_loop
    | apply preserves_extract
    | apply preserves_delete; assumption
    | apply preserves_gets
    | apply preserves_KALDI_ERR
    | apply preserves_bind; [| intros ?]
    | case_match ].
Qed.

End Preserved.

(** ** The sink only grows *)

Lemma trapped_since_stable s0 : stable (trapped_since s0).
Proof.
  split.
  - intros s m (Hh & Hc & Hp & l & Hl & He). unfold log_message. simpl.
    rewrite Hh. unfold trapped_since.
    assert (emitted s ++ [m] = emitted s0 ++ (l ++ [m])) as Hem
      by (by rewrite Hl, <- app_assoc).
    destruct m as [[sev] msg]. unfold trap. simpl.
    destruct sev; simpl; repeat split; try done;
      eexists; (split; [exact Hem |]); rewrite retained_snoc; simpl;
      by rewrite He, ?append_assoc.
  - intros s c H. exact H.
Qed.

Lemma basic_sink (E : Env) (wavfile datadir : string) (s : State) :
  trapped_since s (basic E wavfile datadir s).2.
Proof.
  apply basic_preserves; [apply trapped_since_stable | by intros ? | by intros ? |].
  unfold trapped_since. simpl. repeat split.
  exists []. by rewrite app_nil_r, append_nil_r.
Qed.

(** ** Session histories

    [traces m t P]: [m] never runs into undefined behaviour and never
    exhausts its fuel; when it returns it has made exactly the calls [t]
    and its result satisfies [P]; when it throws it has made a prefix
    of [t]. *)

Lemma traces_ret {A} (a : A) (P : A -> Prop) : P a -> traces (ret a) [] P.
Proof. intros H s. simpl. by rewrite app_nil_r. Qed.

Lemma traces_bind {A B} (m : M A) (f : A -> M B) t1 t2 P Q :
  traces m t1 P -> (forall a, P a -> traces (f a) t2 Q) ->
  traces (bind m f) (t1 ++ t2) Q.
Proof.
  intros Hm Hf s. unfold bind. specialize (Hm s).
  destruct (m s) as [[a|e| |] s1]; try done.
  - destruct Hm as [Hc Ha]. specialize (Hf a Ha s1).
    destruct (f a s1) as [[b|e| |] s2]; try done.
    + destruct Hf as [Hc2 Hb]. split; [| done]. by rewrite Hc2, Hc, app_assoc.
    + destruct Hf as (t' & Hp & Hc2). exists (t1 ++ t'). split.
      * by apply prefix_app.
      * by rewrite Hc2, Hc, app_assoc.
  - destruct Hm as (t' & Hp & Hc). exists t'. split; [| done].
    by apply prefix_app_r.
Qed.

Lemma traces_weaken {A} (m : M A) t (P Q : A -> Prop) :
  traces m t P -> (forall a, P a -> Q a) -> traces m t Q.
Proof.
  intros Hm HPQ s. specialize (Hm s).
  destruct (m s) as [[a|e| |] s1]; try done. destruct Hm; auto.
Qed.

Lemma traces_eq {A} (m : M A) t t' (P : A -> Prop) :
  traces m t P -> t = t' -> traces m t' P.
Proof. by intros H <-. Qed.

Lemma calls_log_message s m : calls (log_message s m) = calls s.
Proof.
  unfold log_message, trap. simpl.
  destruct (log_handler s) as [[]|]; simpl; [| done].
  by destruct (severity m.1).
Qed.

Lemma calls_foldl_log l s : calls (foldl log_message s l) = calls s.
Proof.
  revert s. induction l as [|m l IH]; intros s; simpl; [done |].
  by rewrite IH, calls_log_message.
Qed.

Lemma traces_ecall E c : traces (ecall E c) [c] (fun _ => True).
Proof.
  intros s. unfold ecall.
  destruct (raised (respond E (calls s) c)).
  - exists [c]. by rewrite calls_foldl_log.
  - by rewrite calls_foldl_log.
Qed.

Lemma traces_KALDI_ERR {A} E msg (P : A -> Prop) : traces (@KALDI_ERR E A msg) [] P.
Proof.
  intros s. simpl. exists []. by rewrite calls_log_message, app_nil_r.
Qed.

Lemma traces_new_object : traces new_object [] (fun _ => True).
Proof. intros s. simpl. by rewrite app_nil_r. Qed.

Lemma traces_delete p : traces (delete_object p) [] (fun _ => True).
Proof. intros s. destruct p; simpl; by rewrite app_nil_r. Qed.

Lemma traces_gets {A} (f : State -> A) : traces (gets f) [] (fun _ => True).
Proof. intros s. simpl. by rewrite app_nil_r. Qed.

Lemma traces_read_fst E f :
  traces (read_fst E f) [ReadFstKaldiGeneric f] (fun _ => True).
Proof.
  eapply traces_eq.
  - eapply traces_bind; [apply traces_ecall | intros _ _; apply traces_new_object].
  - done.
Qed.

Lemma traces_read_text E f :
  traces (read_text E f) [SymbolTableReadText f] (fun _ => True).
Proof.
  eapply traces_eq.
  - eapply traces_bind; [apply traces_ecall | intros _ _].
    destruct (symbol_file E f).
    + eapply (traces_bind _ _ [] []); [apply traces_new_object | intros a _].
      by apply traces_ret.
    + by apply traces_ret.
  - done.
Qed.

(** A table pointer that went through the check of lines 99-102 is not
    NULL: the file name always ends in [/words.txt]. *)
Lemma words_txt_not_empty (datadir : string) :
  String.eqb (datadir +:+ "/words.txt") "" = false.
Proof. by destruct datadir. Qed.

Lemma traces_extract E t words acc :
  traces (extract E (Some t) words acc) [] (fun _ => True).
Proof.
  revert acc. induction words as [|w words IH]; intros acc; simpl.
  - by apply traces_ret.
  - eapply (traces_bind _ _ [] []);
      [apply (traces_ret _ (fun _ => True) I) | intros s _].
    eapply (traces_bind _ _ [] [] (fun _ => True)); [| intros _ _; apply IH].
    case_match; [apply traces_KALDI_ERR | by apply traces_ret].
Qed.

(** ** The chunk-feed loop *)

Lemma wrap32_small (z : Z) : -2147483648 <= z <= INT32_MAX -> wrap32 z = z.
Proof. unfold wrap32, INT32_MAX. intros H. rewrite Z.mod_small; lia. Qed.

Lemma SubVector_all (data : list BaseFloat) : SubVector data 0 (Dim data) = data.
Proof.
  unfold SubVector, Dim. rewrite Nat2Z.id. simpl. apply firstn_all.
Qed.

Lemma feed_loop_done E fuel chunk f data :
  feed_loop E fuel chunk f data (Dim data) = ret (Dim data).
Proof. destruct fuel; simpl; by rewrite Z.ltb_irrefl. Qed.

Lemma traces_feed_loop E f data :
  Dim data <= INT32_MAX ->
  traces (feed_loop E (length data) INT32_MAX f data 0) (feed_trace f data)
         (fun off => off = Dim data).
Proof.
  intros Hdim. destruct data as [|x data]; [by apply traces_ret |].
  set (d := x :: data) in *.
  assert (0 < Dim d) as Hpos by (unfold Dim; simpl; lia).
  change (length d) with (S (length data)).
  cbn [feed_loop].
  replace (0 <? Dim d) with true by (symmetry; by apply Z.ltb_lt).
  rewrite Z.sub_0_r, (wrap32_small (Dim d)) by (unfold INT32_MAX in *; lia).
  replace (INT32_MAX <? Dim d) with false by (symmetry; apply Z.ltb_ge; lia).
  rewrite SubVector_all. rewrite Z.add_0_l.
  rewrite (wrap32_small (Dim d)) by (unfold INT32_MAX in *; lia).
  rewrite Z.eqb_refl, feed_loop_done.
  unfold feed_trace, d at 1.
  eapply traces_eq.
  - eapply traces_bind; [apply traces_ecall | intros _ _].
    eapply traces_bind; [apply traces_ecall | intros _ _].
    eapply traces_bind; [apply traces_ecall | intros _ _].
    eapply traces_bind; [apply traces_ecall | intros _ _].
    by apply traces_ret.
  - done.
Qed.

(** ** The calls of one decoding session *)

Lemma traces_word_syms E f msg :
  traces (do t <- read_text E f;
          match t with
          | Some _ => ret t
          | None => KALDI_ERR E msg
          end)
         [SymbolTableReadText f] (fun t => is_Some t).
Proof.
  eapply traces_eq.
  - eapply traces_bind; [apply traces_read_text | intros [t|] _].
    + by apply traces_ret.
    + apply traces_KALDI_ERR.
  - done.
Qed.

Ltac trace_step :=
  eapply traces_bind;
  [ first [ apply traces_ecall | apply traces_read_fst | apply traces_delete
          | apply traces_gets | apply traces_feed_loop; assumption ]
  | intros ? _ ].

Lemma basic_trace (E : Env) (wavfile datadir : string) (s : State) :
  Dim (Data (wave_file E ("scp:echo foo " +:+ wavfile +:+ "|") "foo")) <= INT32_MAX ->
  match basic E wavfile datadir s with
  | (Ret _, s') => calls s' = session_trace E wavfile datadir
  | (Throw _, s') => calls s' `prefix_of` session_trace E wavfile datadir
  | _ => False
  end.
Proof.
  intros Hdim. unfold basic, SetLogHandler. rewrite !bind_modify.
  rewrite words_txt_not_empty. cbn [negb].
  match goal with
  | |- context [bind ?m ?f (set_log_handler ?h ?s0)] =>
      assert (traces (bind m f) (session_trace E wavfile datadir) (fun _ => True))
        as Ht
  end.
  { eapply traces_eq.
    - do 12 trace_step.
      eapply traces_bind; [apply traces_word_syms | intros word_syms [t ->]].
      do 14 trace_step.
      eapply traces_bind; [apply traces_extract | intros ? ?].
      do 2 trace_step.
      by apply traces_ret.
    - unfold session_trace. cbn [app]. reflexivity. }
  specialize (Ht (set_log_handler (Some Trap) (set_calls [] s))).
  match type of Ht with
  | match ?x with _ => _ end => destruct x as [[r|e| |] s']
  end; simpl in Ht; try done.
  - by destruct Ht.
  - destruct Ht as (t' & Hp & ->). done.
Qed.

(** ** Result extraction *)

Lemma extract_all_found E (t : SymbolTable) words acc s :
  Forall (fun w => Find (symbols t) w <> "") words ->
  extract E (Some t) words acc s = (Ret (acc +:+ transcript (symbols t) words), s).
Proof.
  intros H. revert acc. induction H as [|w words Hw _ IH]; intros acc; simpl.
  - unfold ret. by rewrite append_nil_r.
  - unfold bind at 1. simpl.
    apply String.eqb_neq in Hw. rewrite Hw.
    unfold bind at 1. simpl. rewrite IH.
    by rewrite (append_assoc acc (Find (symbols t) w +:+ " ")).
Qed.

Lemma extract_first_miss E (t : SymbolTable) pre w post acc s :
  Forall (fun w => Find (symbols t) w <> "") pre ->
  Find (symbols t) w = "" ->
  extract E (Some t) (pre ++ w :: post) acc s =
  (Throw (std_exception (fatal_what E (not_in_table w))),
   log_message s ({| severity := kError |}, not_in_table w)).
Proof.
  intros H Hw. revert acc. induction H as [|v pre Hv _ IH]; intros acc; simpl.
  - unfold bind at 1. simpl. rewrite Hw. reflexivity.
  - unfold bind at 1. simpl.
    apply String.eqb_neq in Hv. rewrite Hv.
    unfold bind at 1. simpl. apply IH.
Qed.

(** The first word without a display string, walking the path in order. *)
Lemma first_miss (t : gmap Z string) (words : list Z) (w : Z) :
  w ∈ words -> Find t w = "" ->
  exists pre w' post,
    words = pre ++ w' :: post /\
    Forall (fun v => Find t v <> "") pre /\ Find t w' = "".
Proof.
  induction words as [|v words IH]; intros Hin Hw; [by apply elem_of_nil in Hin |].
  destruct (decide (Find t v = "")) as [Hv|Hv].
  - exists [], v, words. by repeat split.
  - apply elem_of_cons in Hin as [->|Hin]; [done |].
    destruct (IH Hin Hw) as (pre & w' & post & -> & Hpre & Hw').
    exists (v :: pre), w', post. repeat split; [| done]. by constructor.
Qed.

Lemma Find_absent (t : gmap Z string) (w : Z) : t !! w = None -> Find t w = "".
Proof. unfold Find. by intros ->. Qed.

Lemma extract_ext E (t1 t2 : SymbolTable) words acc s :
  (forall k, Find (symbols t1) k = Find (symbols t2) k) ->
  extract E (Some t1) words acc s = extract E (Some t2) words acc s.
Proof.
  intros H. revert acc s. induction words as [|w words IH]; intros acc s; simpl;
    [done |].
  unfold bind. simpl. rewrite H.
  destruct (String.eqb (Find (symbols t2) w) ""); [done |].
  simpl. apply IH.
Qed.

Lemma Find_delete_empty (t : gmap Z string) (w k : Z) :
  t !! w = Some "" -> Find (delete w t) k = Find t k.
Proof.
  intros Hw. unfold Find. destruct (decide (w = k)) as [<-|Hne].
  - by rewrite lookup_delete_eq, Hw.
  - by rewrite lookup_delete_ne.
Qed.

(** ** The entry point, case by case *)

Lemma decode_parsed E args wavfile datadir s :
  PyArg_ParseTuple_ss args = Some (wavfile, datadir) ->
  decode E args s =
  match basic E wavfile datadir s with
  | (Ret result, s') =>
      match utf8_error E (c_str result) with
      | Some err => (Ret None, set_py_err (Some err) s')
      | None => (Ret (Some (PyUnicode (c_str result))), s')
      end
  | (Throw e, s') =>
      (Ret None,
       set_py_err
         (Some (match utf8_error E (c_str (errlog s')) with
                | None => (PyExc_RuntimeError, c_str (errlog s'))
                | Some _ => undecodable E PyExc_RuntimeError (c_str (errlog s'))
                end))
         (set_cerr (cerr s' +:+ c_str (what e)) s'))
  | (Crash, s') => (Crash, s')
  | (Diverge, s') => (Diverge, s')
  end.
Proof.
  intros H. unfold decode. rewrite H. unfold try_catch, bind at 1.
  destruct (basic E wavfile datadir s) as [[result|e| |] s']; try reflexivity.
  unfold PyUnicode_FromString. by destruct (utf8_error E (c_str result)).
Qed.

Lemma decode_rejected E args s :
  PyArg_ParseTuple_ss args = None ->
  decode E args s = (Ret None, set_py_err (Some (arg_error E args)) s).
Proof. intros H. unfold decode. by rewrite H. Qed.

(** ** Two runs side by side: composition *)



















(** A call in which [basic] throws: what [decode] leaves behind. *)
Lemma decode_failure (E : Env) args wavfile datadir e s :
  PyArg_ParseTuple_ss args = Some (wavfile, datadir) ->
  (basic E wavfile datadir s).1 = Throw e ->
  nul_free (errlog s) ->
  exists s' l,
    decode E args s = (Ret None, s') /\
    emitted s' = emitted s ++ l /\
    errlog s' = errlog s +:+ retained l /\
    py_err s' = Some (match utf8_error E (errlog s') with
                      | None => (PyExc_RuntimeError, errlog s')
                      | Some _ => undecodable E PyExc_RuntimeError (errlog s')
                      end) /\
    cerr s' = cerr s +:+ c_str (what e).
Proof.
  intros Hargs Hthrow Hnul.
  pose proof (basic_sink E wavfile datadir s) as (_ & Hcerr & _ & l & Hem & Hlog).
  rewrite (decode_parsed _ _ _ _ _ Hargs).
  destruct (basic E wavfile datadir s) as [r s1]. simpl in *. subst r.
  eexists _, l. split; [reflexivity |]. simpl.
  repeat split; try done.
  - rewrite Hlog.
    by rewrite (nul_free_app _ _ Hnul (nul_free_retained l)).
  - by rewrite Hcerr.
Qed.

(** The sink never holds a NUL byte: [c_str()] shows all of it. *)
Lemma decode_keeps_sink_nul_free (E : Env) args (s : State) :
  nul_free (errlog s) -> nul_free (errlog (decode E args s).2).
Proof.
  intros Hnul.
  destruct (PyArg_ParseTuple_ss args) as [[wavfile datadir]|] eqn:Hargs.
  - rewrite (decode_parsed _ _ _ _ _ Hargs).
    pose proof (basic_sink E wavfile datadir s) as (_ & _ & _ & l & _ & Hlog).
    assert (nul_free (errlog (basic E wavfile datadir s).2)) as H.
    { rewrite Hlog. apply nul_free_app; [done | apply nul_free_retained]. }
    destruct (basic E wavfile datadir s) as [[result|e| |] s']; simpl in *;
      try done.
    by destruct (utf8_error E (c_str result)).
  - by rewrite (decode_rejected _ _ _ Hargs).
Qed.

Lemma split_at_unique {A} (x : A) (l1 l2 k1 k2 : list A) :
  l1 ++ x :: l2 = k1 ++ x :: k2 -> x ∉ k1 -> x ∉ k2 -> l1 = k1 /\ l2 = k2.
Proof.
  revert k1. induction l1 as [|a l1 IH]; intros [|b k1] Heq H1 H2; simpl in *.
  - by injection Heq as ->.
  - injection Heq as -> _. exfalso. apply H1. by left.
  - injection Heq as -> <-. exfalso. apply H2.
    apply elem_of_app. right. by left.
  - injection Heq as -> Heq. apply not_elem_of_cons in H1 as [_ H1].
    destruct (IH k1 Heq H1 H2) as [-> ->]. done.
Qed.

(** Membership in an explicit list of calls, settled by comparing
    constructors. *)
Ltac not_listed :=
  let H := fresh in
  intros H;
  repeat (apply elem_of_cons in H as [H|H]; [discriminate H |]);
  by apply elem_of_nil in H.



(** ** The heap along one run of [basic] *)

Lemma heap_log_message s m : heap (log_message s m) = heap s.
Proof.
  unfold log_message, trap. simpl.
  destruct (log_handler s) as [[]|]; simpl; [| done].
  by destruct (severity m.1).
Qed.

Lemma heap_foldl_log l s : heap (foldl log_message s l) = heap s.
Proof.
  revert s. induction l as [|m l IH]; intros s; simpl; [done |].
  by rewrite IH, heap_log_message.
Qed.

Lemma heap_is_stable (H : gset nat) : stable (fun s => heap s = H).
Proof.
  split.
  - intros s m Hs. by rewrite heap_log_message.
  - intros s c Hs. exact Hs.
Qed.

Lemma bind_assoc {A B C} (m : M A) (f : A -> M B) (g : B -> M C) s :
  bind (bind m f) g s = bind m (fun x => bind (f x) g) s.
Proof. unfold bind. by destruct (m s) as [[a|e| |] s']. Qed.

(** One step of symbolic execution: a library call followed by [k]. *)
Lemma step_ecall {B} E c (k : unit -> M B) s (post : Res B * State -> Prop) :
  (forall s1, calls s1 = calls s ++ [c] -> heap s1 = heap s ->
     (forall e, post (Throw e, s1)) /\ post (k tt s1)) ->
  post (bind (ecall E c) k s).
Proof.
  intros H. unfold bind, ecall.
  destruct (H (foldl log_message (set_calls (calls s ++ [c]) s)
                 (logs (respond E (calls s) c)))) as [Ht Hk].
  - by rewrite calls_foldl_log.
  - by rewrite heap_foldl_log.
  - destruct (raised (respond E (calls s) c)); [apply Ht | apply Hk].
Qed.

(** Line 96. *)
Lemma step_read_fst {B} E f (k : nat -> M B) s (post : Res B * State -> Prop) :
  (forall s1, calls s1 = calls s ++ [ReadFstKaldiGeneric f] -> heap s1 = heap s ->
     forall e, post (Throw e, s1)) ->
  (forall s2, calls s2 = calls s ++ [ReadFstKaldiGeneric f] ->
     heap s2 = {[fresh (heap s)]} ∪ heap s -> post (k (fresh (heap s)) s2)) ->
  post (bind (read_fst E f) k s).
Proof.
  intros Ht Hk. unfold read_fst. rewrite bind_assoc. apply step_ecall.
  intros s1 Hc Hh. split; [by apply Ht |].
  unfold bind, new_object. cbv beta zeta iota.
  rewrite Hh. by apply Hk.
Qed.

(** Lines 98-102. *)
Lemma step_word_syms {B} E f msg (k : option SymbolTable -> M B) s
    (post : Res B * State -> Prop) :
  (forall s1, calls s1 = calls s ++ [SymbolTableReadText f] -> heap s1 = heap s ->
     forall e, post (Throw e, s1)) ->
  (forall t s2, calls s2 = calls s ++ [SymbolTableReadText f] ->
     heap s2 = {[fresh (heap s)]} ∪ heap s ->
     post (k (Some {| sym_addr := fresh (heap s); symbols := t |}) s2)) ->
  post (bind (do t <- read_text E f;
              match t with
              | Some _ => ret t
              | None => KALDI_ERR E msg
              end) k s).
Proof.
  intros Ht Hk. unfold read_text. rewrite !bind_assoc. apply step_ecall.
  intros s1 Hc Hh. split; [by apply Ht |].
  destruct (symbol_file E f) as [t|].
  - unfold bind, new_object, ret. cbv beta zeta iota.
    rewrite Hh. by apply Hk.
  - unfold bind, ret, KALDI_ERR. cbv beta zeta iota.
    apply Ht; by rewrite ?calls_log_message, ?heap_log_message.
Qed.

Lemma holds_step {A B} I (m : M A) (f : A -> M B) Q :
  preserves I m -> (forall a, holds_until_return I (f a) Q) ->
  holds_until_return I (bind m f) Q.
Proof.
  intros Hm Hf s Hs. unfold bind. specialize (Hm s Hs).
  destruct (m s) as [[a|e| |] s']; try done. by apply Hf.
Qed.

Lemma both_live (H : gset nat) (a b : nat) :
  a ∈ {[b]} ∪ ({[a]} ∪ H) /\ b ∈ {[b]} ∪ ({[a]} ∪ H).
Proof. rewrite !elem_of_union, !elem_of_singleton. tauto. Qed.

Lemma release_both (H : gset nat) (a b : nat) :
  a ∉ H -> b ∉ {[a]} ∪ H -> ({[b]} ∪ ({[a]} ∪ H)) ∖ {[a]} ∖ {[b]} = H.
Proof.
  intros Ha Hb. apply set_eq. intros x.
  rewrite !elem_of_difference, !elem_of_union, !elem_of_singleton.
  rewrite elem_of_union, elem_of_singleton in Hb.
  split; [tauto |].
  intros Hx. repeat split; [tauto | |]; intros ->; tauto.
Qed.

Ltac heap_facts :=
  match goal with
  | Hc : calls ?s0 = _, Hh : heap ?s0 = _ |- _ =>
      let s1 := fresh "s" in
      let Hc1 := fresh "Hc" in
      let Hh1 := fresh "Hh" in
      intros s1 Hc1 Hh1; rewrite ?Hh;
      rewrite Hc in Hc1; rewrite Hh in Hh1; cbn [app] in Hc1;
      clear Hc Hh; try clear s0
  end.

Ltac heap_step := apply step_ecall; heap_facts.

Ltac heap_throw :=
  match goal with
  | Hc : calls ?s1 = _, Hh : heap ?s1 = _ |- _ =>
      rewrite Hc, Hh; split; intros Hin;
      first [ exfalso; revert Hin; not_listed
            | apply elem_of_union; left; by apply elem_of_singleton ]
  end.

(** The state [basic] leaves behind.  When it returns, the heap is what
    it was at entry.  When it throws after the graph was read (the table
    read has been attempted), the graph, at the first free address [a],
    is still allocated; when it throws after the table was read (the wav
    reader has been opened), so is the table, at the next free address. *)
Lemma basic_heap (E : Env) (wavfile datadir : string) (s : State) :
  let a := fresh (heap s) in
  let b := fresh ({[a]} ∪ heap s) in
  match basic E wavfile datadir s with
  | (Ret _, s') => heap s' = heap s
  | (Throw _, s') =>
      (SymbolTableReadText (datadir +:+ "/words.txt") ∈ calls s' -> a ∈ heap s') /\
      (NewWavReader ("scp:echo foo " +:+ wavfile +:+ "|") ∈ calls s' ->
       a ∈ heap s' /\ b ∈ heap s')
  | _ => True
  end.
Proof.
  intros a b. unfold basic, SetLogHandler. rewrite !bind_modify.
  rewrite words_txt_not_empty. cbn [negb].
  remember (set_log_handler (Some Trap) (set_calls [] s)) as s0 eqn:Hs0.
  assert (calls s0 = []) as Hc by (by subst s0).
  assert (heap s0 = heap s) as Hh by (by subst s0).
  clear Hs0.
  set (post := fun r : Res string * State =>
    match r with
    | (Ret _, s') => heap s' = heap s
    | (Throw _, s') =>
        (SymbolTableReadText (datadir +:+ "/words.txt") ∈ calls s' -> a ∈ heap s') /\
        (NewWavReader ("scp:echo foo " +:+ wavfile +:+ "|") ∈ calls s' ->
         a ∈ heap s' /\ b ∈ heap s')
    | _ => True
    end).
  match goal with |- match ?x with _ => _ end => change (post x) end.
  assert (a ∉ heap s) as Ha by apply is_fresh.
  assert (b ∉ {[a]} ∪ heap s) as Hb by apply is_fresh.
  (* lines 76-93: nothing is allocated yet *)
  do 11 (heap_step; split; [intros ?; unfold post; heap_throw |]).
  (* line 96: the graph *)
  apply step_read_fst; [heap_facts; intros ?; unfold post; heap_throw |].
  heap_facts.
  (* lines 98-102: the table *)
  apply step_word_syms; [heap_facts; intros ?; unfold post; heap_throw |].
  intros t. heap_facts.
  (* lines 104-168 keep the heap; lines 170-171 release both objects *)
  match goal with
  | Hh : heap ?s1 = ?H2 |- post (?m ?s1) =>
      assert (holds_until_return (fun s' => heap s' = H2) m
                (fun s' => heap s' = heap s)) as Hlate;
      [| specialize (Hlate s1 Hh); unfold post;
         destruct (m s1) as [[r|e| |] s']; try done;
         rewrite Hlate; pose proof (both_live (heap s) a b) as [? ?]; by repeat split ]
  end.
  do 15 (apply holds_step;
         [ first [ apply preserves_ecall | apply preserves_feed_loop
                 | apply preserves_gets | apply preserves_extract ];
           apply heap_is_stable
         | intros ? ]).
  intros s' Hs'. simpl. rewrite Hs'. by apply release_both.
Qed.

(** * The claims *)

(** C1, as stated, fails.  A decode call with a corrupted acoustic model
    is followed by one whose best path leaves the vocabulary.  After the
    first call the sink is not empty, and the error message of the second
    call starts with the text captured during the first. *)
Lemma sink_not_drained_by_failed_call :
  let first := decode Demo.corrupt Demo.args boot in
  let second := decode Demo.mismatch Demo.args first.2 in
  first.1 = Ret None /\ second.1 = Ret None /\
  errlog first.2 <> "" /\
  py_err first.2 =
    Some (PyExc_RuntimeError, "Expected token <TransitionModel>") /\
  py_err second.2 =
    Some (PyExc_RuntimeError,
          "Expected token <TransitionModel>Word-id 4 not in symbol table.").
Proof. vm_compute. by repeat split. Qed.

(** C1, amended.  [decode] never clears the sink.  For two failing decode
    calls executed back to back, the sink after the first call holds its
    content at entry followed by the error and assert-failed messages
    logged during that call, and the sink after the second call is that
    same text followed by the messages retained during the second call.
    Each call hands the sink at its end to [PyErr_SetString]: when that
    text is valid UTF-8 it is the message of the [RuntimeError], so the
    second message starts with the first; when it is not, the host gets
    the error the interpreter leaves for a message it cannot decode. *)
Theorem sink_accumulates_across_calls
    (E1 E2 : Env) (args1 args2 : list PyObject)
    (wav1 dir1 wav2 dir2 : string) (e1 e2 : Exn) (s : State) :
  nul_free (errlog s) ->
  PyArg_ParseTuple_ss args1 = Some (wav1, dir1) ->
  PyArg_ParseTuple_ss args2 = Some (wav2, dir2) ->
  (basic E1 wav1 dir1 s).1 = Throw e1 ->
  (basic E2 wav2 dir2 (decode E1 args1 s).2).1 = Throw e2 ->
  let s1 := (decode E1 args1 s).2 in
  let s2 := (decode E2 args2 s1).2 in
  exists l1 l2,
    emitted s1 = emitted s ++ l1 /\
    emitted s2 = emitted s1 ++ l2 /\
    errlog s1 = errlog s +:+ retained l1 /\
    py_err s1 =
      Some (match utf8_error E1 (errlog s +:+ retained l1) with
            | None => (PyExc_RuntimeError, errlog s +:+ retained l1)
            | Some _ =>
                undecodable E1 PyExc_RuntimeError (errlog s +:+ retained l1)
            end) /\
    errlog s2 = (errlog s +:+ retained l1) +:+ retained l2 /\
    py_err s2 =
      Some (match utf8_error E2 ((errlog s +:+ retained l1) +:+ retained l2) with
            | None =>
                (PyExc_RuntimeError, (errlog s +:+ retained l1) +:+ retained l2)
            | Some _ =>
                undecodable E2 PyExc_RuntimeError
                  ((errlog s +:+ retained l1) +:+ retained l2)
            end).
Proof.
  intros Hnul Ha1 Ha2 Ht1 Ht2 s1 s2. subst s1 s2.
  destruct (decode_failure E1 args1 wav1 dir1 e1 s Ha1 Ht1 Hnul)
    as (s1 & l1 & Hd1 & Hem1 & Hlog1 & Hpy1 & _).
  rewrite Hd1 in *. simpl in *.
  assert (nul_free (errlog s1)) as Hnul1.
  { rewrite Hlog1. apply nul_free_app; [done | apply nul_free_retained]. }
  destruct (decode_failure E2 args2 wav2 dir2 e2 s1 Ha2 Ht2 Hnul1)
    as (s2 & l2 & Hd2 & Hem2 & Hlog2 & Hpy2 & _).
  rewrite Hd2. simpl.
  exists l1, l2. rewrite Hpy2, Hlog2, Hpy1, Hlog1. done.
Qed.

Lemma sink_accumulates_across_calls_witness :
  let s1 := (decode Demo.corrupt Demo.args boot).2 in
  let s2 := (decode Demo.mismatch Demo.args s1).2 in
  exists l1 l2,
    emitted s1 = emitted boot ++ l1 /\
    emitted s2 = emitted s1 ++ l2 /\
    errlog s1 = errlog boot +:+ retained l1 /\
    py_err s1 = Some (PyExc_RuntimeError, errlog boot +:+ retained l1) /\
    errlog s2 = (errlog boot +:+ retained l1) +:+ retained l2 /\
    py_err s2 =
      Some (PyExc_RuntimeError, (errlog boot +:+ retained l1) +:+ retained l2).
Proof.
  apply (sink_accumulates_across_calls Demo.corrupt Demo.mismatch
           Demo.args Demo.args "utt.wav" "model" "utt.wav" "model"
           (std_exception "kaldi::KaldiFatalError")
           (std_exception "kaldi::KaldiFatalError") boot);
    vm_compute; reflexivity.
Defined.

(** C2, as stated, fails.  The decoder cannot be allocated; nothing is
    logged; the host gets a [RuntimeError] whose message is the empty
    string, not a placeholder. *)
Lemma unlogged_failure_has_empty_message :
  let r := decode Demo.out_of_memory Demo.args boot in
  r.1 = Ret None /\ py_err r.2 = Some (PyExc_RuntimeError, "").
Proof. vm_compute. by split. Qed.

(** C2, amended.  When [basic] throws, [decode] returns NULL with an
    error set from the whole sink: its content at entry followed by the
    error and assert-failed messages logged during the call.  When that
    text is valid UTF-8 the error is a [RuntimeError] with the sink as
    its message, the empty string when the sink is empty; when it is
    not valid UTF-8 the error is the one the interpreter leaves for a
    message it cannot decode, and the sink is not shown. *)
Theorem failure_message_is_the_sink
    (E : Env) (args : list PyObject) (wavfile datadir : string) (e : Exn)
    (s : State) :
  nul_free (errlog s) ->
  PyArg_ParseTuple_ss args = Some (wavfile, datadir) ->
  (basic E wavfile datadir s).1 = Throw e ->
  let r := decode E args s in
  r.1 = Ret None /\
  (exists l, emitted r.2 = emitted s ++ l /\
             errlog r.2 = errlog s +:+ retained l) /\
  py_err r.2 =
    Some (match utf8_error E (errlog r.2) with
          | None => (PyExc_RuntimeError, errlog r.2)
          | Some _ => undecodable E PyExc_RuntimeError (errlog r.2)
          end) /\
  (errlog r.2 = "" -> utf8_error E "" = None ->
   py_err r.2 = Some (PyExc_RuntimeError, "")).
Proof.
  intros Hnul Hargs Hthrow r. subst r.
  destruct (decode_failure E args wavfile datadir e s Hargs Hthrow Hnul)
    as (s' & l & Hd & Hem & Hlog & Hpy & _).
  rewrite Hd. simpl. repeat split; try done.
  - by exists l.
  - intros H0 Hutf. by rewrite Hpy, H0, Hutf.
Qed.

Lemma failure_message_is_the_sink_witness :
  (let r := decode Demo.corrupt Demo.args boot in
   r.1 = Ret None /\
   (exists l, emitted r.2 = emitted boot ++ l /\
              errlog r.2 = errlog boot +:+ retained l) /\
   py_err r.2 = Some (PyExc_RuntimeError, errlog r.2) /\
   (errlog r.2 = "" -> utf8_error Demo.corrupt "" = None ->
    py_err r.2 = Some (PyExc_RuntimeError, ""))) /\
  (let r := decode Demo.garbled Demo.args boot in
   r.1 = Ret None /\
   (exists l, emitted r.2 = emitted boot ++ l /\
              errlog r.2 = errlog boot +:+ retained l) /\
   errlog r.2 = String (Ascii.ascii_of_nat 255) "bad token" /\
   py_err r.2 = Some (PyExc_RuntimeError, "") /\
   (errlog r.2 = "" -> utf8_error Demo.garbled "" = None ->
    py_err r.2 = Some (PyExc_RuntimeError, ""))).
Proof.
  split.
  - apply (failure_message_is_the_sink Demo.corrupt Demo.args "utt.wav" "model"
             (std_exception "kaldi::KaldiFatalError") boot);
      vm_compute; reflexivity.
  - assert (nul_free (errlog boot)) as H1 by reflexivity.
    assert (PyArg_ParseTuple_ss Demo.args = Some ("utt.wav", "model")) as H2
      by reflexivity.
    assert ((basic Demo.garbled "utt.wav" "model" boot).1
            = Throw (std_exception "kaldi::KaldiFatalError")) as H3
      by (vm_compute; reflexivity).
    pose proof (failure_message_is_the_sink Demo.garbled Demo.args
                  "utt.wav" "model" _ boot H1 H2 H3) as H.
    vm_compute in H. vm_compute.
    destruct H as (Hr & Hl & Hpy & Hempty). by repeat split.
Defined.

(** C3.  For a wav file with no samples the loop body is never entered:
    no waveform is accepted and the search is never advanced.  The only
    [InputFinished] of the program sits inside the loop body, so
    end-of-input is never signalled, although the claim asks for it
    exactly once.  The rest of the claim holds: the call ends without
    undefined behaviour, and when it returns it has finalized the search. *)
Theorem zero_length_audio_never_signals_end_of_input
    (E : Env) (wavfile datadir : string) (s : State) :
  utterance E wavfile = [] ->
  let r := basic E wavfile datadir s in
  (InputFinished ∉ calls r.2) /\
  (forall f part, AcceptWaveform f part ∉ calls r.2) /\
  (AdvanceDecoding ∉ calls r.2) /\
  ((exists text, r.1 = Ret text) /\ (FinalizeDecoding ∈ calls r.2) \/
   (exists e, r.1 = Throw e)).
Proof.
  intros Hdata r. subst r.
  pose proof (basic_trace E wavfile datadir s) as Ht.
  unfold session_trace in Ht. fold (utterance E wavfile) in Ht.
  rewrite Hdata in Ht. specialize (Ht ltac:(done)). cbn [feed_trace app] in Ht.
  destruct (basic E wavfile datadir s) as [[text|e| |] s']; try done; simpl.
  - rewrite Ht. repeat split; try (intros; not_listed).
    left. split; [by eexists |]. rewrite !elem_of_cons. tauto.
  - destruct Ht as [k Hk].
    assert (forall c, c ∈ calls s' -> c ∈ calls s' ++ k) as Hin
      by (intros c Hc; apply elem_of_app; by left).
    rewrite <- Hk in Hin.
    repeat split; try (intros; intros Hc; apply Hin in Hc; revert Hc; not_listed).
    right. by eexists.
Qed.

Lemma zero_length_audio_never_signals_end_of_input_witness :
  let r := basic Demo.silence "utt.wav" "model" boot in
  (InputFinished ∉ calls r.2) /\
  (forall f part, AcceptWaveform f part ∉ calls r.2) /\
  (AdvanceDecoding ∉ calls r.2) /\
  ((exists text, r.1 = Ret text) /\ (FinalizeDecoding ∈ calls r.2) \/
   (exists e, r.1 = Throw e)).
Proof.
  apply (zero_length_audio_never_signals_end_of_input Demo.silence
           "utt.wav" "model" boot).
  reflexivity.
Defined.

(** C4.  For non-empty audio that fits the [int32] dimension of a Kaldi
    vector, in every execution of [basic], returning or throwing:
    whenever the search is advanced, the whole audio has just been
    submitted as one chunk and end-of-input has been signalled, in that
    order, and no other advance follows; after [FinalizeDecoding] no
    waveform is submitted, no end-of-input is signalled and the search
    is not advanced; and an execution that returns has done all of it. *)
Theorem end_of_input_precedes_last_advance
    (E : Env) (wavfile datadir : string) (s : State) :
  utterance E wavfile <> [] ->
  Dim (utterance E wavfile) <= INT32_MAX ->
  let data := utterance E wavfile in
  let samp_freq :=
    SampFreq (wave_file E ("scp:echo foo " +:+ wavfile +:+ "|") "foo") in
  let r := basic E wavfile datadir s in
  (forall l1 l2, calls r.2 = l1 ++ AdvanceDecoding :: l2 ->
     (exists l0, l1 = l0 ++ [AcceptWaveform samp_freq data;
                            WaitUntil (Dim data) samp_freq; InputFinished]) /\
     (AdvanceDecoding ∉ l2)) /\
  (forall l1 l2, calls r.2 = l1 ++ FinalizeDecoding :: l2 ->
     (forall f part, AcceptWaveform f part ∉ l2) /\
     (InputFinished ∉ l2) /\ (AdvanceDecoding ∉ l2)) /\
  (forall text, r.1 = Ret text ->
     exists l1 l2,
       calls r.2 = l1 ++ [InputFinished; AdvanceDecoding; FinalizeDecoding] ++ l2).
Proof.
  intros Hne Hdim data samp_freq r. subst r.
  pose proof (basic_trace E wavfile datadir s Hdim) as Ht.
  unfold session_trace in Ht. fold (utterance E wavfile) in Ht.
  fold data samp_freq in Ht.
  assert (feed_trace samp_freq data =
          [AcceptWaveform samp_freq data; WaitUntil (Dim data) samp_freq;
           InputFinished; AdvanceDecoding]) as Hfeed
    by (unfold feed_trace; fold data in Hne; by destruct data).
  rewrite Hfeed in Ht. cbn [app] in Ht.
  match type of Ht with
  | context [calls _ = ?T] => set (T' := T) in *
  end.
  assert (exists k, T' = calls (basic E wavfile datadir s).2 ++ k) as [k Hk].
  { destruct (basic E wavfile datadir s) as [[text|e| |] s']; try done; simpl.
    exists []. by rewrite app_nil_r. }
  split; [| split].
  - intros l1 l2 Hl. rewrite Hl, <- app_assoc in Hk. simpl in Hk.
    match eval unfold T' in T' with
    | ?c1 :: ?c2 :: ?c3 :: ?c4 :: ?c5 :: ?c6 :: ?c7 :: ?c8 :: ?c9 :: ?c10 ::
      ?c11 :: ?c12 :: ?c13 :: ?c14 :: ?c15 :: ?c16 :: ?c17 :: ?c18 :: ?c19 ::
      ?c20 :: ?c21 :: ?c22 :: ?c23 :: AdvanceDecoding :: ?rest =>
        assert (T' = [c1; c2; c3; c4; c5; c6; c7; c8; c9; c10; c11; c12; c13;
                      c14; c15; c16; c17; c18; c19; c20; c21; c22; c23]
                     ++ AdvanceDecoding :: rest) as HT by reflexivity
    end.
    rewrite HT in Hk. symmetry in Hk.
    apply split_at_unique in Hk as [-> Hl2]; [| not_listed | not_listed].
    split.
    + eexists [_; _; _; _; _; _; _; _; _; _; _; _; _; _; _; _; _; _; _; _].
      reflexivity.
    + intros Hin.
      assert (AdvanceDecoding ∈ l2 ++ k) as Hin'
        by (apply elem_of_app; by left).
      rewrite Hl2 in Hin'. revert Hin'. not_listed.
  - intros l1 l2 Hl. rewrite Hl, <- app_assoc in Hk. simpl in Hk.
    match eval unfold T' in T' with
    | ?c1 :: ?c2 :: ?c3 :: ?c4 :: ?c5 :: ?c6 :: ?c7 :: ?c8 :: ?c9 :: ?c10 ::
      ?c11 :: ?c12 :: ?c13 :: ?c14 :: ?c15 :: ?c16 :: ?c17 :: ?c18 :: ?c19 ::
      ?c20 :: ?c21 :: ?c22 :: ?c23 :: ?c24 :: FinalizeDecoding :: ?rest =>
        assert (T' = [c1; c2; c3; c4; c5; c6; c7; c8; c9; c10; c11; c12; c13;
                      c14; c15; c16; c17; c18; c19; c20; c21; c22; c23; c24]
                     ++ FinalizeDecoding :: rest) as HT by reflexivity
    end.
    rewrite HT in Hk. symmetry in Hk.
    apply split_at_unique in Hk as [-> Hl2]; [| not_listed | not_listed].
    assert (forall c, c ∈ l2 -> c ∈ l2 ++ k) as Hin
      by (intros c Hc; apply elem_of_app; by left).
    rewrite Hl2 in Hin.
    repeat split; intros; intros Hc; apply Hin in Hc; revert Hc; not_listed.
  - intros text Hret.
    destruct (basic E wavfile datadir s) as [r s']. simpl in *. subst r.
    rewrite Ht. unfold T'.
    eexists [_; _; _; _; _; _; _; _; _; _; _; _; _; _; _; _; _; _; _; _; _; _], _.
    reflexivity.
Qed.

Lemma end_of_input_precedes_last_advance_witness :
  let data := utterance Demo.good "utt.wav" in
  let r := basic Demo.good "utt.wav" "model" boot in
  (forall l1 l2, calls r.2 = l1 ++ AdvanceDecoding :: l2 ->
     (exists l0, l1 = l0 ++ [AcceptWaveform Demo.freq_8k data;
                            WaitUntil (Dim data) Demo.freq_8k; InputFinished]) /\
     (AdvanceDecoding ∉ l2)) /\
  (forall l1 l2, calls r.2 = l1 ++ FinalizeDecoding :: l2 ->
     (forall f part, AcceptWaveform f part ∉ l2) /\
     (InputFinished ∉ l2) /\ (AdvanceDecoding ∉ l2)) /\
  (forall text, r.1 = Ret text ->
     exists l1 l2,
       calls r.2 = l1 ++ [InputFinished; AdvanceDecoding; FinalizeDecoding] ++ l2).
Proof.
  apply (end_of_input_precedes_last_advance Demo.good "utt.wav" "model" boot).
  - vm_compute. discriminate.
  - vm_compute. discriminate.
Defined.

(** C5.  Result extraction over the table [word_syms] points to.  When
    every id of the best path has a display string, the result is the
    display strings in path order, each followed by one space, and the
    state is untouched.  When some id is not in the table, the fatal
    error of line 166 is raised for the first id of the path without a
    display string: its text goes to the logging layer with severity
    error, an exception is thrown, and no string is returned. *)
Theorem extract_maps_words_or_fails
    (E : Env) (word_syms : SymbolTable) (words : list Z) (s : State) :
  (Forall (fun w => Find (symbols word_syms) w <> "") words ->
   extract E (Some word_syms) words "" s =
   (Ret (transcript (symbols word_syms) words), s)) /\
  (forall w, w ∈ words -> symbols word_syms !! w = None ->
   exists pre w' post,
     words = pre ++ w' :: post /\
     Forall (fun v => Find (symbols word_syms) v <> "") pre /\
     Find (symbols word_syms) w' = "" /\
     extract E (Some word_syms) words "" s =
     (Throw (std_exception (fatal_what E (not_in_table w'))),
      log_message s ({| severity := kError |}, not_in_table w'))).
Proof.
  split.
  - intros H. by rewrite extract_all_found.
  - intros w Hin Hw.
    destruct (first_miss (symbols word_syms) words w Hin (Find_absent _ _ Hw))
      as (pre & w' & post & -> & Hpre & Hw').
    exists pre, w', post. repeat split; try done.
    by apply extract_first_miss.
Qed.

Lemma extract_maps_words_or_fails_witness :
  let t := {| sym_addr := 0; symbols := Demo.vocabulary |} in
  extract Demo.good (Some t) [1; 2] "" boot = (Ret "foo bar ", boot) /\
  exists pre w' post,
    [1; 4; 2] = pre ++ w' :: post /\
    Forall (fun v => Find (symbols t) v <> "") pre /\
    Find (symbols t) w' = "" /\
    extract Demo.good (Some t) [1; 4; 2] "" boot =
    (Throw (std_exception (fatal_what Demo.good (not_in_table w'))),
     log_message boot ({| severity := kError |}, not_in_table w')).
Proof.
  intros t. split.
  - apply (proj1 (extract_maps_words_or_fails Demo.good t [1; 2] boot)).
    repeat constructor; vm_compute; discriminate.
  - apply (proj2 (extract_maps_words_or_fails Demo.good t [1; 4; 2] boot) 4).
    + apply elem_of_cons. right. apply elem_of_cons. by left.
    + reflexivity.
Defined.

(** C6.  Started with a clear error indicator, on audio that fits the
    [int32] dimension of a Kaldi vector, [decode] always comes back to
    the host, and in exactly one of two ways: with a [str] and the error
    indicator still clear, or with NULL and the error indicator set.  It
    never runs into undefined behaviour, never lets an exception escape
    and never hands back text together with an error. *)
Theorem decode_returns_text_or_error
    (E : Env) (args : list PyObject) (s : State) :
  py_err s = None ->
  (forall wavfile, Dim (utterance E wavfile) <= INT32_MAX) ->
  let r := decode E args s in
  (exists text, r.1 = Ret (Some (PyUnicode text)) /\ py_err r.2 = None) \/
  (r.1 = Ret None /\ exists err, py_err r.2 = Some err).
Proof.
  intros Hpy Hdim r. subst r.
  destruct (PyArg_ParseTuple_ss args) as [[wavfile datadir]|] eqn:Hargs.
  - rewrite (decode_parsed _ _ _ _ _ Hargs).
    pose proof (basic_trace E wavfile datadir s (Hdim wavfile)) as Ht.
    pose proof (basic_sink E wavfile datadir s) as (_ & _ & Hpy' & _).
    destruct (basic E wavfile datadir s) as [[result|e| |] s']; try done.
    + destruct (utf8_error E (c_str result)) as [err|]; simpl.
      * right. split; [done | by exists err].
      * left. exists (c_str result). simpl in Hpy'. by rewrite Hpy', Hpy.
    + right. simpl. split; [done | by eexists].
  - rewrite (decode_rejected _ _ _ Hargs). right. simpl.
    split; [done | by eexists].
Qed.

Lemma decode_returns_text_or_error_witness :
  let r := decode Demo.good Demo.args boot in
  (exists text, r.1 = Ret (Some (PyUnicode text)) /\ py_err r.2 = None) \/
  (r.1 = Ret None /\ exists err, py_err r.2 = Some err).
Proof.
  apply (decode_returns_text_or_error Demo.good Demo.args boot).
  - reflexivity.
  - intros wavfile. vm_compute. discriminate.
Defined.

(** C7.  Whenever [basic] throws after the search graph was read (the
    read of the symbol table has been attempted), the graph is still
    allocated when [decode] hands the error to the host; whenever it
    throws after the symbol table was read too (the wav reader has been
    opened), so is the table.  The [delete] statements of lines 170-171
    are only reached when the function returns.  [a] and [b] are the
    addresses the two objects get, both free at entry. *)
Theorem graph_and_table_leak_when_basic_throws
    (E : Env) (args : list PyObject) (wavfile datadir : string) (e : Exn)
    (s : State) :
  PyArg_ParseTuple_ss args = Some (wavfile, datadir) ->
  (basic E wavfile datadir s).1 = Throw e ->
  let a := fresh (heap s) in
  let b := fresh ({[a]} ∪ heap s) in
  let r := decode E args s in
  r.1 = Ret None /\ (a ∉ heap s) /\ (b ∉ heap s) /\ a <> b /\
  (SymbolTableReadText (datadir +:+ "/words.txt") ∈ calls r.2 -> a ∈ heap r.2) /\
  (NewWavReader ("scp:echo foo " +:+ wavfile +:+ "|") ∈ calls r.2 ->
   a ∈ heap r.2 /\ b ∈ heap r.2).
Proof.
  intros Hargs Hthrow a b r. subst r.
  pose proof (basic_heap E wavfile datadir s) as Hheap.
  rewrite (decode_parsed _ _ _ _ _ Hargs).
  destruct (basic E wavfile datadir s) as [r s']. simpl in Hthrow. subst r.
  simpl in *.
  assert (a ∉ heap s) as Ha by apply is_fresh.
  assert (b ∉ {[a]} ∪ heap s) as Hb by apply is_fresh.
  rewrite elem_of_union, elem_of_singleton in Hb.
  destruct Hheap as [H1 H2].
  repeat split; try done; try tauto; try (by apply H2).
  intros Hab. apply Hb. by left.
Qed.

Lemma graph_and_table_leak_when_basic_throws_witness :
  let r := decode Demo.mismatch Demo.args boot in
  r.1 = Ret None /\ (0%nat ∉ heap boot) /\ (1%nat ∉ heap boot) /\ 0%nat <> 1%nat /\
  (SymbolTableReadText "model/words.txt" ∈ calls r.2 -> 0%nat ∈ heap r.2) /\
  (NewWavReader "scp:echo foo utt.wav|" ∈ calls r.2 ->
   0%nat ∈ heap r.2 /\ 1%nat ∈ heap r.2).
Proof.
  apply (graph_and_table_leak_when_basic_throws Demo.mismatch Demo.args
           "utt.wav" "model" (std_exception "kaldi::KaldiFatalError") boot);
    vm_compute; reflexivity.
Defined.

(** Evaluation at a vocabulary mismatch: the best path uses id 4, which
    words.txt does not list; the heap, empty at entry, holds two objects
    when [decode] comes back; on the matching audio it is empty again. *)
Example vocabulary_mismatch_leaves_two_objects :
  let r := decode Demo.mismatch Demo.args boot in
  r.1 = Ret None /\
  py_err r.2 = Some (PyExc_RuntimeError, "Word-id 4 not in symbol table.") /\
  elements (heap boot) = [] /\
  elements (heap r.2) = [1; 0]%nat /\
  elements (heap (decode Demo.good Demo.args boot).2) = [].
Proof. vm_compute. by repeat split. Qed.

(** C8, as stated, fails.  With a corrupted acoustic model the handler of
    [decode] writes the [what()] text of the exception to [std::cerr];
    so it does when the decoder cannot be allocated. *)
Lemma exception_text_written_to_cerr :
  let r := decode Demo.corrupt Demo.args boot in
  let r' := decode Demo.out_of_memory Demo.args boot in
  r.1 = Ret None /\ r'.1 = Ret None /\ cerr boot = "" /\
  cerr r.2 = "kaldi::KaldiFatalError" /\ cerr r'.2 = "std::bad_alloc".
Proof. vm_compute. by repeat split. Qed.

(** C8, amended.  No message the engine logs during a decode call reaches
    [std::cerr]: the only bytes the call writes there are the [what()]
    text of the exception [basic] threw, if it threw one.  Of the
    messages handed to the logging layer during the call, those with
    severity error or assert-failed are appended to the sink, in order,
    and the others are dropped. *)
Theorem only_exception_text_reaches_cerr
    (E : Env) (args : list PyObject) (s : State) :
  cerr (decode E args s).2 =
  cerr s +:+
  match PyArg_ParseTuple_ss args with
  | Some (wavfile, datadir) =>
      match (basic E wavfile datadir s).1 with
      | Throw e => c_str (what e)
      | _ => ""
      end
  | None => ""
  end /\
  exists l,
    emitted (decode E args s).2 = emitted s ++ l /\
    errlog (decode E args s).2 = errlog s +:+ retained l.
Proof.
  destruct (PyArg_ParseTuple_ss args) as [[wavfile datadir]|] eqn:Hargs.
  - rewrite (decode_parsed _ _ _ _ _ Hargs).
    pose proof (basic_sink E wavfile datadir s)
      as (_ & Hcerr & _ & l & Hem & Hlog).
    split; [| exists l];
      destruct (basic E wavfile datadir s) as [[result|e| |] s']; simpl in *;
      rewrite ?append_nil_r; try done;
      try (by destruct (utf8_error E (c_str result))).
    by rewrite Hcerr.
  - rewrite (decode_rejected _ _ _ Hargs). simpl. rewrite append_nil_r.
    split; [done |]. exists []. by rewrite app_nil_r, append_nil_r.
Qed.




(** C10.  An id whose display string is the empty string is handled
    exactly like an id that is missing: extraction behaves as if the
    entry had been removed from the table, and raises the
    word-id-not-in-symbol-table error when the path reaches that id. *)
Theorem empty_display_string_counts_as_missing
    (E : Env) (word_syms : SymbolTable) (w : Z) :
  symbols word_syms !! w = Some "" ->
  (forall words acc s,
     extract E (Some word_syms) words acc s =
     extract E (Some {| sym_addr := sym_addr word_syms;
                        symbols := delete w (symbols word_syms) |})
             words acc s) /\
  (forall pre post acc s,
     Forall (fun v => Find (symbols word_syms) v <> "") pre ->
     extract E (Some word_syms) (pre ++ w :: post) acc s =
     (Throw (std_exception (fatal_what E (not_in_table w))),
      log_message s ({| severity := kError |}, not_in_table w))).
Proof.
  intros Hw. split.
  - intros words acc s. apply extract_ext. intros k. simpl.
    symmetry. by apply Find_delete_empty.
  - intros pre post acc s Hpre. apply extract_first_miss; [done |].
    unfold Find. by rewrite Hw.
Qed.

Lemma empty_display_string_counts_as_missing_witness :
  let t := {| sym_addr := 0; symbols := <[4 := ""]> Demo.vocabulary |} in
  extract Demo.good (Some t) [1; 4; 2] "" boot =
  (Throw (std_exception "kaldi::KaldiFatalError"),
   log_message boot ({| severity := kError |}, "Word-id 4 not in symbol table.")).
Proof.
  intros t.
  apply (proj2 (empty_display_string_counts_as_missing Demo.good t 4 eq_refl)
           [1] [2] "" boot).
  repeat constructor. vm_compute. discriminate.
Defined.

(** * Further properties *)

(** ** The chunk-feed loop for any chunk length

    [basic] runs the loop of lines 128-144 with [chunk_length] at the
    largest [int32]; the loop itself is written for any chunk length.
    What follows holds for every chunk length from 1 up. *)

(** The samples a list of calls submits, in order. *)
Definition submitted (t : list Call) : list BaseFloat :=
  concat (map (fun c => match c with
                        | AcceptWaveform _ wave_part => wave_part
                        | _ => []
                        end) t).

(** The sizes of the chunks a list of calls submits. *)
Definition chunk_sizes (t : list Call) : list nat :=
  omap (fun c => match c with
                 | AcceptWaveform _ wave_part => Some (length wave_part)
                 | _ => None
                 end) t.

(** The calls of the loop when no call throws, from a sample offset on. *)
Fixpoint feed_calls (fuel : nat) (chunk_length : Z) (samp_freq : BaseFloat)
    (data : list BaseFloat) (samp_offset : Z) : list Call :=
  match fuel with
  | O => []
  | S fuel' =>
      if samp_offset <? Dim data then
        let num_samp := Z.min chunk_length (Dim data - samp_offset) in
        let next := samp_offset + num_samp in
        AcceptWaveform samp_freq (SubVector data samp_offset num_samp)
        :: WaitUntil next samp_freq
        :: (if next =? Dim data then [InputFinished] else [])
        ++ AdvanceDecoding :: feed_calls fuel' chunk_length samp_freq data next
      else []
  end.

Lemma min_as_test (c r : Z) : (if c <? r then c else r) = Z.min c r.
Proof. destruct (Z.ltb_spec c r); lia. Qed.

Lemma traces_feed_loop_chunks E chunk f data fuel off :
  1 <= chunk <= INT32_MAX -> Dim data <= INT32_MAX ->
  0 <= off <= Dim data -> Dim data - off <= Z.of_nat fuel ->
  traces (feed_loop E fuel chunk f data off) (feed_calls fuel chunk f data off)
         (fun r => r = Dim data).
Proof.
  intros Hchunk Hdim. revert off.
  induction fuel as [|fuel IH]; intros off Hoff Hfuel.
  - simpl. replace (off <? Dim data) with false by (symmetry; apply Z.ltb_ge; lia).
    apply traces_ret. lia.
  - cbn [feed_loop feed_calls].
    destruct (Z.ltb_spec off (Dim data)) as [Hlt|Hge];
      [| apply traces_ret; lia].
    rewrite (wrap32_small (Dim data - off)) by (unfold INT32_MAX in *; lia).
    rewrite min_as_test.
    set (n := Z.min chunk (Dim data - off)).
    assert (1 <= n <= Dim data - off) as Hn by (unfold n; lia).
    rewrite (wrap32_small (off + n)) by (unfold INT32_MAX in *; lia).
    eapply traces_eq.
    + eapply traces_bind; [apply traces_ecall | intros _ _].
      eapply traces_bind; [apply traces_ecall | intros _ _].
      eapply (traces_bind _ _ (if off + n =? Dim data then [InputFinished] else [])
                _ (fun _ => True)).
      { destruct (off + n =? Dim data);
          [apply traces_ecall | by apply traces_ret]. }
      intros _ _.
      eapply traces_bind; [apply traces_ecall | intros _ _].
      apply IH; lia.
    + reflexivity.
Qed.

Lemma submitted_app (t k : list Call) : submitted (t ++ k) = submitted t ++ submitted k.
Proof. unfold submitted. by rewrite map_app, concat_app. Qed.

Lemma chunk_sizes_app (t k : list Call) :
  chunk_sizes (t ++ k) = chunk_sizes t ++ chunk_sizes k.
Proof. unfold chunk_sizes. apply omap_app. Qed.

Lemma SubVector_next (data : list BaseFloat) (off n : Z) :
  0 <= off -> 0 <= n ->
  SubVector data off n ++ drop (Z.to_nat (off + n)) data = drop (Z.to_nat off) data.
Proof.
  intros Hoff Hn. unfold SubVector.
  rewrite Z2Nat.inj_add by lia.
  rewrite <- drop_drop. apply take_drop.
Qed.

Lemma SubVector_length (data : list BaseFloat) (off n : Z) :
  0 <= off -> 0 <= n -> off + n <= Dim data ->
  length (SubVector data off n) = Z.to_nat n.
Proof.
  intros Hoff Hn Hle. unfold SubVector, Dim in *.
  rewrite length_take, length_drop. lia.
Qed.

(** The calls of the loop from an offset on: they submit the rest of the
    samples; past the last sample they end in end-of-input followed by
    one advance, and end-of-input is signalled nowhere else. *)
Lemma feed_calls_shape chunk f data fuel off :
  1 <= chunk -> 0 <= off <= Dim data -> Dim data - off <= Z.of_nat fuel ->
  submitted (feed_calls fuel chunk f data off) = drop (Z.to_nat off) data /\
  Forall (fun n => (1 <= n)%nat /\ Z.of_nat n <= chunk)
         (chunk_sizes (feed_calls fuel chunk f data off)) /\
  (off < Dim data ->
   exists t0, feed_calls fuel chunk f data off
              = t0 ++ [InputFinished; AdvanceDecoding] /\
              InputFinished ∉ t0).
Proof.
  intros Hchunk. revert off.
  induction fuel as [|fuel IH]; intros off Hoff Hfuel.
  - assert (off = Dim data) as -> by lia. simpl. unfold Dim.
    rewrite Nat2Z.id, drop_all. repeat split; [constructor | lia].
  - cbn [feed_calls].
    destruct (Z.ltb_spec off (Dim data)) as [Hlt|Hge].
    + set (n := Z.min chunk (Dim data - off)).
      assert (1 <= n <= Dim data - off) as Hn by (unfold n; lia).
      assert (n <= chunk) as Hnc by (unfold n; lia).
      destruct (IH (off + n)) as (Hsub & Hsizes & Hend); [lia | lia |].
      repeat split.
      * match goal with
        | |- submitted (?a :: ?b :: ?x ++ ?c :: ?l) = _ =>
            change (submitted ([a; b] ++ x ++ [c] ++ l) = drop (Z.to_nat off) data)
        end.
        rewrite !submitted_app, Hsub.
        replace (submitted (if off + n =? Dim data then [InputFinished] else []))
          with (@nil BaseFloat) by (by destruct (off + n =? Dim data)).
        unfold submitted at 1 2. simpl. rewrite app_nil_r.
        apply SubVector_next; lia.
      * match goal with
        | |- Forall ?P (chunk_sizes (?a :: ?b :: ?x ++ ?c :: ?l)) =>
            change (Forall P (chunk_sizes ([a; b] ++ x ++ [c] ++ l)))
        end.
        rewrite !chunk_sizes_app.
        replace (chunk_sizes (if off + n =? Dim data then [InputFinished] else []))
          with (@nil nat) by (by destruct (off + n =? Dim data)).
        unfold chunk_sizes at 1 2. simpl. constructor; [| exact Hsizes].
        rewrite SubVector_length by lia. lia.
      * intros _. destruct (Z.eqb_spec (off + n) (Dim data)) as [Heq|Hne].
        -- assert (feed_calls fuel chunk f data (off + n) = []) as ->.
           { destruct fuel; [done |]. cbn [feed_calls].
             by replace (off + n <? Dim data) with false
               by (symmetry; apply Z.ltb_ge; lia). }
           eexists [_; _]. split; [reflexivity | not_listed].
        -- destruct Hend as (t0 & -> & Hnot); [lia |].
           eexists (_ :: _ :: AdvanceDecoding :: t0). split; [reflexivity |].
           intros Hin. apply elem_of_cons in Hin as [Hin|Hin]; [discriminate |].
           apply elem_of_cons in Hin as [Hin|Hin]; [discriminate |].
           apply elem_of_cons in Hin as [Hin|Hin]; [discriminate | done].
    + assert (off = Dim data) as -> by lia. simpl. unfold Dim.
      rewrite Nat2Z.id, drop_all. repeat split; [constructor | lia].
Qed.

(** A run of the loop over all the samples: it ends, and the calls it
    made are the calls of the loop, all of them when it returns. *)
Lemma feed_loop_run E chunk f data s :
  1 <= chunk <= INT32_MAX -> Dim data <= INT32_MAX ->
  let r := feed_loop E (length data) chunk f data 0 s in
  exists t k,
    calls r.2 = calls s ++ t /\
    feed_calls (length data) chunk f data 0 = t ++ k /\
    (r.1 = Ret (Dim data) /\ k = [] \/ exists e, r.1 = Throw e).
Proof.
  intros Hchunk Hdim r. subst r.
  pose proof (traces_feed_loop_chunks E chunk f data (length data) 0 Hchunk Hdim)
    as Ht.
  specialize (Ht ltac:(unfold Dim; lia) ltac:(unfold Dim; lia) s).
  destruct (feed_loop E (length data) chunk f data 0 s) as [[v|e| |] s'];
    try done; simpl.
  - destruct Ht as [Hc ->].
    exists (feed_calls (length data) chunk f data 0), [].
    rewrite app_nil_r. eauto.
  - destruct Ht as (t' & [k Hk] & Hc). exists t', k. eauto.
Qed.

(** The loop submits every sample exactly once and in order: when it
    returns, the chunks it submitted, put end to end, are the audio; when
    a call throws, they are a prefix of the audio.  It always ends within
    one iteration per sample. *)
Theorem feed_loop_submits_each_sample_once
    (E : Env) (chunk_length : Z) (samp_freq : BaseFloat)
    (data : list BaseFloat) (s : State) :
  1 <= chunk_length <= INT32_MAX -> Dim data <= INT32_MAX ->
  let r := feed_loop E (length data) chunk_length samp_freq data 0 s in
  exists t,
    calls r.2 = calls s ++ t /\
    (r.1 = Ret (Dim data) /\ submitted t = data \/
     (exists e, r.1 = Throw e) /\ submitted t `prefix_of` data).
Proof.
  intros Hchunk Hdim r.
  destruct (feed_loop_run E chunk_length samp_freq data s Hchunk Hdim)
    as (t & k & Hc & Hk & Hr).
  destruct (feed_calls_shape chunk_length samp_freq data (length data) 0)
    as (Hsub & _); [lia | unfold Dim; lia | unfold Dim; lia |].
  rewrite Hk, submitted_app in Hsub. simpl in Hsub.
  exists t. split; [exact Hc |].
  destruct Hr as [[Hr ->]|Hr].
  - left. split; [exact Hr |]. by rewrite app_nil_r in Hsub.
  - right. split; [exact Hr |]. by exists (submitted k).
Qed.

Lemma feed_loop_submits_each_sample_once_witness :
  let r := feed_loop Demo.good 3 2 Demo.freq_8k [12; -7; 3] 0 boot in
  exists t,
    calls r.2 = calls boot ++ t /\
    (r.1 = Ret (Dim [12; -7; 3]) /\ submitted t = [12; -7; 3] \/
     (exists e, r.1 = Throw e) /\ submitted t `prefix_of` [12; -7; 3]).
Proof.
  apply (feed_loop_submits_each_sample_once Demo.good 2 Demo.freq_8k
           [12; -7; 3] boot);
    [vm_compute; split; discriminate | vm_compute; discriminate].
Defined.

(** Every chunk the loop submits holds at least one sample and at most
    [chunk_length] samples, whether the loop returns or a call throws. *)
Theorem feed_loop_chunks_are_bounded
    (E : Env) (chunk_length : Z) (samp_freq : BaseFloat)
    (data : list BaseFloat) (s : State) (t : list Call) :
  1 <= chunk_length <= INT32_MAX -> Dim data <= INT32_MAX ->
  calls (feed_loop E (length data) chunk_length samp_freq data 0 s).2
    = calls s ++ t ->
  Forall (fun n => (1 <= n)%nat /\ Z.of_nat n <= chunk_length) (chunk_sizes t).
Proof.
  intros Hchunk Hdim Ht.
  destruct (feed_loop_run E chunk_length samp_freq data s Hchunk Hdim)
    as (t' & k & Hc & Hk & _).
  rewrite Hc in Ht. apply app_inv_head in Ht as <-.
  destruct (feed_calls_shape chunk_length samp_freq data (length data) 0)
    as (_ & Hsizes & _); [lia | unfold Dim; lia | unfold Dim; lia |].
  rewrite Hk, chunk_sizes_app in Hsizes. by apply Forall_app in Hsizes as [? _].
Qed.

Lemma feed_loop_chunks_are_bounded_witness :
  Forall (fun n => (1 <= n)%nat /\ Z.of_nat n <= 2)
         (chunk_sizes [AcceptWaveform Demo.freq_8k [12; -7];
                       WaitUntil 2 Demo.freq_8k; AdvanceDecoding;
                       AcceptWaveform Demo.freq_8k [3];
                       WaitUntil 3 Demo.freq_8k; InputFinished; AdvanceDecoding]).
Proof.
  apply (feed_loop_chunks_are_bounded Demo.good 2 Demo.freq_8k [12; -7; 3] boot);
    [vm_compute; split; discriminate | vm_compute; discriminate | reflexivity].
Defined.

(** End-of-input in the loop: wherever [InputFinished] occurs among the
    calls of the loop, every sample has been submitted before it, it has
    not been signalled before, and at most one advance of the search
    follows; and when the loop returns on non-empty audio, its last two
    calls are [InputFinished] and [AdvanceDecoding]. *)
Theorem feed_loop_signals_end_of_input_last
    (E : Env) (chunk_length : Z) (samp_freq : BaseFloat)
    (data : list BaseFloat) (s : State) (t : list Call) :
  1 <= chunk_length <= INT32_MAX -> Dim data <= INT32_MAX ->
  let r := feed_loop E (length data) chunk_length samp_freq data 0 s in
  calls r.2 = calls s ++ t ->
  (forall l1 l2, t = l1 ++ InputFinished :: l2 ->
     submitted l1 = data /\ (InputFinished ∉ l1) /\
     l2 `prefix_of` [AdvanceDecoding]) /\
  (forall v, r.1 = Ret v -> data <> [] ->
     exists t0, t = t0 ++ [InputFinished; AdvanceDecoding]).
Proof.
  intros Hchunk Hdim r Ht.
  destruct (feed_loop_run E chunk_length samp_freq data s Hchunk Hdim)
    as (t' & k & Hc & Hk & Hr).
  fold r in Hc, Hr. rewrite Hc in Ht. apply app_inv_head in Ht as <-.
  destruct (feed_calls_shape chunk_length samp_freq data (length data) 0)
    as (Hsub & _ & Hend); [lia | unfold Dim; lia | unfold Dim; lia |].
  simpl in Hsub.
  destruct data as [|x data].
  - split; [| done]. intros l1 l2 ->. simpl in Hk.
    symmetry in Hk. apply app_eq_nil in Hk as [Hk _].
    by apply app_eq_nil in Hk as [_ ?].
  - destruct Hend as (t0 & H0 & Hnot); [unfold Dim; simpl; lia |].
    rewrite H0 in Hk, Hsub. rewrite submitted_app in Hsub.
    change (submitted [InputFinished; AdvanceDecoding]) with (@nil BaseFloat)
      in Hsub.
    rewrite app_nil_r in Hsub.
    split.
    + intros l1 l2 ->. rewrite <- app_assoc in Hk. simpl in Hk.
      symmetry in Hk.
      apply (split_at_unique InputFinished l1 (l2 ++ k) t0 [AdvanceDecoding])
        in Hk as [-> Hl2]; [| done | not_listed].
      repeat split; [done | done | by exists k].
    + intros v Hv _. destruct Hr as [[_ ->]|[e He]]; [| congruence].
      rewrite app_nil_r in Hk. by exists t0.
Qed.

Lemma feed_loop_signals_end_of_input_last_witness :
  let r := feed_loop Demo.good 3 2 Demo.freq_8k [12; -7; 3] 0 boot in
  let t := [AcceptWaveform Demo.freq_8k [12; -7]; WaitUntil 2 Demo.freq_8k;
            AdvanceDecoding; AcceptWaveform Demo.freq_8k [3];
            WaitUntil 3 Demo.freq_8k; InputFinished; AdvanceDecoding] in
  (forall l1 l2, t = l1 ++ InputFinished :: l2 ->
     submitted l1 = [12; -7; 3] /\ (InputFinished ∉ l1) /\
     l2 `prefix_of` [AdvanceDecoding]) /\
  (forall v, r.1 = Ret v -> [12; -7; 3] <> [] ->
     exists t0, t = t0 ++ [InputFinished; AdvanceDecoding]).
Proof.
  apply (feed_loop_signals_end_of_input_last Demo.good 2 Demo.freq_8k
           [12; -7; 3] boot);
    [vm_compute; split; discriminate | vm_compute; discriminate | reflexivity].
Defined.

(** ** The log trap *)

(** The severities the trap keeps (lines 21-22). *)
Definition kept (m : LogMessage) : bool :=
  match severity m.1 with
  | kError | kAssertFailed => true
  | _ => false
  end.

(** A sequence of calls of [trap] changes nothing but the sink, and
    appends to it the texts of the error and assert-failed messages, in
    order, each up to its first NUL; warnings, informational and verbose
    messages leave no trace. *)
Theorem trap_appends_errors_only (l : list LogMessage) (s : State) :
  foldl (fun s m => trap m.1 m.2 s) s l =
  set_errlog
    (errlog s +:+ foldr String.append "" (map (fun m => c_str m.2) (List.filter kept l)))
    s.
Proof.
  revert s. induction l as [|[[sev] msg] l IH]; intros s.
  - simpl. rewrite append_nil_r. by destruct s.
  - cbn [foldl]. rewrite IH. unfold trap, kept. simpl.
    destruct sev; simpl; try reflexivity;
      unfold set_errlog; simpl; by rewrite append_assoc.
Qed.

Lemma decode_keeps_sink_nul_free_witness :
  nul_free (errlog (decode Demo.corrupt Demo.args boot).2).
Proof.
  apply (decode_keeps_sink_nul_free Demo.corrupt Demo.args boot). reflexivity.
Defined.

(** ** What a decode call leaves behind *)

(** The trap is never uninstalled: after a decode call whose arguments
    parse, it is the installed log handler, however the call ended. *)
Theorem decode_leaves_trap_installed
    (E : Env) (args : list PyObject) (wavfile datadir : string) (s : State) :
  PyArg_ParseTuple_ss args = Some (wavfile, datadir) ->
  log_handler (decode E args s).2 = Some Trap.
Proof.
  intros Hargs. rewrite (decode_parsed _ _ _ _ _ Hargs).
  pose proof (basic_sink E wavfile datadir s) as (Hh & _).
  destruct (basic E wavfile datadir s) as [[result|e| |] s']; simpl in *;
    try done.
  by destruct (utf8_error E (c_str result)).
Qed.

Lemma decode_leaves_trap_installed_witness :
  log_handler boot = None /\
  log_handler (decode Demo.good Demo.args boot).2 = Some Trap.
Proof.
  split; [reflexivity |].
  apply (decode_leaves_trap_installed Demo.good Demo.args "utt.wav" "model" boot).
  reflexivity.
Defined.

(** A decode call only ever appends to the sink, on every path: whatever
    the arguments and however the call ends, the sink afterwards is the
    sink at entry followed by the error and assert-failed messages
    handed to the logging layer during the call. *)
Theorem decode_only_appends_to_sink
    (E : Env) (args : list PyObject) (s : State) :
  exists l,
    emitted (decode E args s).2 = emitted s ++ l /\
    errlog (decode E args s).2 = errlog s +:+ retained l.
Proof.
  destruct (PyArg_ParseTuple_ss args) as [[wavfile datadir]|] eqn:Hargs.
  - rewrite (decode_parsed _ _ _ _ _ Hargs).
    pose proof (basic_sink E wavfile datadir s) as (_ & _ & _ & l & Hem & Hlog).
    exists l.
    destruct (basic E wavfile datadir s) as [[result|e| |] s']; simpl in *;
      try done.
    by destruct (utf8_error E (c_str result)).
  - rewrite (decode_rejected _ _ _ Hargs). exists []. simpl.
    by rewrite app_nil_r, append_nil_r.
Qed.

(** When [basic] returns, the graph and the symbol table are released:
    the heap after the decode call is the heap at entry, also when the
    text then fails to decode as UTF-8. *)
Theorem decode_releases_graph_and_table_on_return
    (E : Env) (args : list PyObject) (wavfile datadir text : string)
    (s : State) :
  PyArg_ParseTuple_ss args = Some (wavfile, datadir) ->
  (basic E wavfile datadir s).1 = Ret text ->
  heap (decode E args s).2 = heap s.
Proof.
  intros Hargs Hret. rewrite (decode_parsed _ _ _ _ _ Hargs).
  pose proof (basic_heap E wavfile datadir s) as Hheap.
  destruct (basic E wavfile datadir s) as [r s']. simpl in *. subst r.
  by destruct (utf8_error E (c_str text)).
Qed.

Lemma decode_releases_graph_and_table_on_return_witness :
  heap (decode Demo.good Demo.args boot).2 = heap boot.
Proof.
  apply (decode_releases_graph_and_table_on_return Demo.good Demo.args
           "utt.wav" "model" "foo bar " boot); reflexivity.
Defined.

(** The library calls of a decode call and their order are fixed by the
    model directory, the wav file name and the audio: the calls made are
    a prefix of the session's list, and all of it when [basic] returns.
    What the library answers only decides where the list stops. *)
Theorem decode_calls_follow_the_session
    (E : Env) (args : list PyObject) (wavfile datadir : string) (s : State) :
  PyArg_ParseTuple_ss args = Some (wavfile, datadir) ->
  Dim (utterance E wavfile) <= INT32_MAX ->
  calls (decode E args s).2 `prefix_of` session_trace E wavfile datadir /\
  (forall text, (basic E wavfile datadir s).1 = Ret text ->
     calls (decode E args s).2 = session_trace E wavfile datadir).
Proof.
  intros Hargs Hdim. rewrite (decode_parsed _ _ _ _ _ Hargs).
  pose proof (basic_trace E wavfile datadir s Hdim) as Ht.
  destruct (basic E wavfile datadir s) as [[result|e| |] s']; simpl in *;
    try done.
  assert (calls s' `prefix_of` session_trace E wavfile datadir) as Hp
    by (rewrite Ht; reflexivity).
  destruct (utf8_error E (c_str result)); simpl; split; try done.
Qed.

Lemma decode_calls_follow_the_session_witness :
  (calls (decode Demo.corrupt Demo.args boot).2
     `prefix_of` session_trace Demo.corrupt "utt.wav" "model" /\
   length (calls (decode Demo.corrupt Demo.args boot).2) = 6%nat) /\
  calls (decode Demo.good Demo.args boot).2
  = session_trace Demo.good "utt.wav" "model".
Proof.
  split; [split |].
  - apply (decode_calls_follow_the_session Demo.corrupt Demo.args
             "utt.wav" "model" boot); [reflexivity | vm_compute; discriminate].
  - reflexivity.
  - apply (decode_calls_follow_the_session Demo.good Demo.args
             "utt.wav" "model" boot) with (text := "foo bar ");
      [reflexivity | vm_compute; discriminate | reflexivity].
Defined.

(** ** The heap after a failure, exactly *)

Ltac listed :=
  repeat first [ apply list_elem_of_here | apply list_elem_of_further ].

Ltac heap_cases :=
  match goal with
  | Hc : calls ?s1 = _, Hh : heap ?s1 = _ |- _ =>
      rewrite Hc, Hh; repeat split; intros;
      first [ reflexivity
            | exfalso;
              match goal with
              | H : _ ∈ _ |- _ => revert H; not_listed
              | H : _ ∉ _ |- _ => apply H; listed
              end ]
  end.

Lemma in_calls_stable (c : Call) : stable (fun s => c ∈ calls s).
Proof.
  split.
  - intros s m Hs. by rewrite calls_log_message.
  - intros s c' Hs. simpl. apply elem_of_app. by left.
Qed.

Lemma and_stable (I J : State -> Prop) :
  stable I -> stable J -> stable (fun s => I s /\ J s).
Proof.
  intros [Il Ic] [Jl Jc]. split; intros s x [Hi Hj]; split; auto.
Qed.

(** What is on the heap when [basic] throws, by how far it got: nothing
    new before the table read is attempted, the graph from then until
    the wav reader is opened, the graph and the table from then on. *)
Lemma basic_heap_exact (E : Env) (wavfile datadir : string) (s : State) :
  let a := fresh (heap s) in
  let b := fresh ({[a]} ∪ heap s) in
  let table_read := SymbolTableReadText (datadir +:+ "/words.txt") in
  let wav_opened := NewWavReader ("scp:echo foo " +:+ wavfile +:+ "|") in
  match basic E wavfile datadir s with
  | (Throw _, s') =>
      (table_read ∉ calls s' -> heap s' = heap s) /\
      (table_read ∈ calls s' -> wav_opened ∉ calls s' ->
       heap s' = {[a]} ∪ heap s) /\
      (wav_opened ∈ calls s' -> heap s' = {[b]} ∪ ({[a]} ∪ heap s))
  | _ => True
  end.
Proof.
  intros a b table_read wav_opened. unfold basic, SetLogHandler.
  rewrite !bind_modify. rewrite words_txt_not_empty. cbn [negb].
  remember (set_log_handler (Some Trap) (set_calls [] s)) as s0 eqn:Hs0.
  assert (calls s0 = []) as Hc by (by subst s0).
  assert (heap s0 = heap s) as Hh by (by subst s0).
  clear Hs0.
  set (post := fun r : Res string * State =>
    match r with
    | (Throw _, s') =>
        (table_read ∉ calls s' -> heap s' = heap s) /\
        (table_read ∈ calls s' -> wav_opened ∉ calls s' ->
         heap s' = {[a]} ∪ heap s) /\
        (wav_opened ∈ calls s' -> heap s' = {[b]} ∪ ({[a]} ∪ heap s))
    | _ => True
    end).
  match goal with |- match ?x with _ => _ end => change (post x) end.
  do 11 (heap_step; split; [intros ?; unfold post; heap_cases |]).
  apply step_read_fst; [heap_facts; intros ?; unfold post; heap_cases |].
  heap_facts.
  apply step_word_syms; [heap_facts; intros ?; unfold post; heap_cases |].
  intros t. heap_facts.
  heap_step. split; [intros ?; unfold post; heap_cases |].
  match goal with
  | Hc : calls ?s1 = _, Hh : heap ?s1 = ?H2 |- post (?m ?s1) =>
      assert (holds_until_return
                (fun s' => (table_read ∈ calls s' /\ wav_opened ∈ calls s') /\
                           heap s' = H2)
                m (fun _ => True)) as Hlate;
      [| assert (table_read ∈ calls s1 /\ wav_opened ∈ calls s1) as Hin
           by (rewrite Hc; split; listed);
         specialize (Hlate s1 (conj Hin Hh)); unfold post;
         destruct (m s1) as [[r|e| |] s']; try done;
         destruct Hlate as [[? ?] ->]; by repeat split ]
  end.
  match goal with
  | |- holds_until_return ?I _ _ =>
      assert (stable I) as HI
        by (apply and_stable;
            [ apply and_stable; apply in_calls_stable | apply heap_is_stable ])
  end.
  do 14 (apply holds_step;
         [ first [ by apply preserves_ecall | by apply preserves_feed_loop
                 | apply preserves_gets | by apply preserves_extract ]
         | intros ? ]).
  intros s' Hs'. by simpl.
Qed.

(** A failed decode call leaves at most the graph and the table behind,
    and nothing at all when the failure comes before the graph was read:
    the heap is the heap at entry until the table read is attempted, the
    heap at entry and the graph from then until the wav reader is opened,
    the heap at entry, the graph and the table from then on. *)
Theorem failed_decode_leaves_at_most_graph_and_table
    (E : Env) (args : list PyObject) (wavfile datadir : string) (e : Exn)
    (s : State) :
  PyArg_ParseTuple_ss args = Some (wavfile, datadir) ->
  (basic E wavfile datadir s).1 = Throw e ->
  let a := fresh (heap s) in
  let b := fresh ({[a]} ∪ heap s) in
  let table_read := SymbolTableReadText (datadir +:+ "/words.txt") in
  let wav_opened := NewWavReader ("scp:echo foo " +:+ wavfile +:+ "|") in
  let s' := (decode E args s).2 in
  (table_read ∉ calls s' -> heap s' = heap s) /\
  (table_read ∈ calls s' -> wav_opened ∉ calls s' -> heap s' = {[a]} ∪ heap s) /\
  (wav_opened ∈ calls s' -> heap s' = {[b]} ∪ ({[a]} ∪ heap s)).
Proof.
  intros Hargs Hthrow a b table_read wav_opened s'. subst s'.
  pose proof (basic_heap_exact E wavfile datadir s) as Hheap.
  rewrite (decode_parsed _ _ _ _ _ Hargs).
  destruct (basic E wavfile datadir s) as [r s']. simpl in Hthrow. subst r.
  exact Hheap.
Qed.

Ltac eval_calls :=
  match goal with
  | |- context [calls ?s] =>
      let c := eval vm_compute in (calls s) in
      replace (calls s) with c by (vm_compute; reflexivity)
  end.

Lemma failed_decode_leaves_at_most_graph_and_table_witness :
  heap (decode Demo.corrupt Demo.args boot).2 = heap boot /\
  heap (decode Demo.no_vocabulary Demo.args boot).2 = {[0%nat]} ∪ heap boot /\
  heap (decode Demo.mismatch Demo.args boot).2
  = {[1%nat]} ∪ ({[0%nat]} ∪ heap boot).
Proof.
  split; [| split].
  - destruct (failed_decode_leaves_at_most_graph_and_table Demo.corrupt
                Demo.args "utt.wav" "model"
                (std_exception "kaldi::KaldiFatalError") boot)
      as (H & _ & _); [reflexivity | reflexivity |].
    apply H. eval_calls. not_listed.
  - destruct (failed_decode_leaves_at_most_graph_and_table Demo.no_vocabulary
                Demo.args "utt.wav" "model"
                (std_exception "kaldi::KaldiFatalError") boot)
      as (_ & H & _); [reflexivity | reflexivity |].
    apply H; eval_calls; [listed | not_listed].
  - destruct (failed_decode_leaves_at_most_graph_and_table Demo.mismatch
                Demo.args "utt.wav" "model"
                (std_exception "kaldi::KaldiFatalError") boot)
      as (_ & _ & H); [reflexivity | reflexivity |].
    apply H. eval_calls. listed.
Defined.

(** ** A session in which no library call throws *)

(** [m] never throws. *)
Definition never_throws {A} (m : M A) : Prop :=
  forall s e, (m s).1 <> Throw e.

(** The library throws nowhere. *)
Definition quiet_library (E : Env) : Prop :=
  forall h c, raised (respond E h c) = None.

Lemma never_throws_ret {A} (a : A) : never_throws (ret a).
Proof. by intros s e. Qed.

Lemma never_throws_bind {A B} (m : M A) (f : A -> M B) :
  never_throws m -> (forall a, never_throws (f a)) -> never_throws (bind m f).
Proof.
  intros Hm Hf s e. unfold bind. specialize (Hm s).
  destruct (m s) as [[a|e'| |] s']; simpl in *; try done.
  - apply Hf.
  - by destruct (Hm e').
Qed.

Lemma never_throws_ecall E c : quiet_library E -> never_throws (ecall E c).
Proof. intros Hq s e. unfold ecall. by rewrite Hq. Qed.

Lemma never_throws_read_fst E f : quiet_library E -> never_throws (read_fst E f).
Proof.
  intros Hq. apply never_throws_bind; [by apply never_throws_ecall |].
  by intros _ s e.
Qed.

Lemma never_throws_feed_loop E fuel chunk f data off :
  quiet_library E -> never_throws (feed_loop E fuel chunk f data off).
Proof.
  intros Hq. revert off. induction fuel as [|fuel IH]; intros off; simpl;
    destruct (off <? Dim data); try (by intros s e).
  repeat (apply never_throws_bind; [| intros _]);
    try (by apply never_throws_ecall); [| apply IH].
  case_match; [by apply never_throws_ecall | apply never_throws_ret].
Qed.

(** One step of a session: a computation that never throws, under an
    invariant it preserves, followed by [k]. *)
Lemma step_quiet {A B} (I : State -> Prop) (m : M A) t P (k : A -> M B) s
    (post : Res B * State -> Prop) :
  traces m t P -> never_throws m -> preserves I m -> I s ->
  (forall a s1, P a -> calls s1 = calls s ++ t -> I s1 -> post (k a s1)) ->
  post (bind m k s).
Proof.
  intros Ht Hn Hp Hs Hk. unfold bind.
  specialize (Ht s). specialize (Hn s). specialize (Hp s Hs).
  destruct (m s) as [[a|e| |] s1]; simpl in *; try done.
  - destruct Ht as [Hc Ha]. by apply Hk.
  - by destruct (Hn e).
Qed.

Lemma traces_word_syms_table E f msg table :
  symbol_file E f = Some table ->
  traces (do t <- read_text E f;
          match t with
          | Some _ => ret t
          | None => KALDI_ERR E msg
          end)
         [SymbolTableReadText f]
         (fun t => exists a, t = Some {| sym_addr := a; symbols := table |}).
Proof.
  intros Hf. unfold read_text. rewrite Hf.
  eapply traces_eq.
  - eapply traces_bind.
    + eapply traces_bind; [apply traces_ecall | intros _ _].
      eapply (traces_bind _ _ [] [] (fun _ => True));
        [apply traces_new_object | intros a _].
      apply (traces_ret _ (fun t => exists a, t = Some {| sym_addr := a; symbols := table |})).
      by exists a.
    + intros t [a ->]. apply traces_ret. by exists a.
  - reflexivity.
Qed.

Lemma never_throws_word_syms E f msg table :
  quiet_library E -> symbol_file E f = Some table ->
  never_throws (do t <- read_text E f;
                match t with
                | Some _ => ret t
                | None => KALDI_ERR E msg
                end).
Proof.
  intros Hq Hf s e. unfold read_text, bind, ecall. rewrite Hf, Hq. by simpl.
Qed.

Lemma preserves_word_syms E I f msg :
  stable I -> alloc_stable I ->
  preserves I (do t <- read_text E f;
               match t with
               | Some _ => ret t
               | None => KALDI_ERR E msg
               end).
Proof.
  intros HI HA. apply preserves_bind; [by apply preserves_read_text |].
  intros [t|]; [apply preserves_ret | by apply preserves_KALDI_ERR].
Qed.

Lemma trapped_since_alloc s0 : alloc_stable (trapped_since s0).
Proof. by intros s a H. Qed.

Ltac quiet_facts :=
  match goal with
  | Hc : calls ?s0 = _, HI : trapped_since _ ?s0 |- _ =>
      let Hc1 := fresh "Hc" in
      let HI1 := fresh "HI" in
      intros Hc1 HI1;
      rewrite Hc in Hc1; cbn [app] in Hc1;
      clear Hc HI; try clear s0
  end.

Ltac quiet_ecall Hq :=
  match goal with
  | HI : trapped_since ?s _ |- _ =>
      eapply (step_quiet (trapped_since s));
      [ apply traces_ecall
      | by apply never_throws_ecall
      | apply preserves_ecall, trapped_since_stable
      | exact HI
      | intros ? ? _; quiet_facts ]
  end.

(** [basic] up to the extraction loop, when the library throws nowhere
    and the table can be read: all the calls of the session are made, in
    a state that has only logged since entry, and what is left to run is
    the extraction over the best path and the two [delete]. *)
Lemma basic_reaches_extraction (E : Env) (wavfile datadir : string)
    (table : gmap Z string) (s : State) :
  quiet_library E ->
  symbol_file E (datadir +:+ "/words.txt") = Some table ->
  Dim (utterance E wavfile) <= INT32_MAX ->
  exists s1 a b,
    calls s1 = session_trace E wavfile datadir /\
    trapped_since s s1 /\
    basic E wavfile datadir s =
    (do result <- extract E (Some {| sym_addr := b; symbols := table |})
                    (best_path_words E (session_trace E wavfile datadir)) "";
     do _ <- delete_object (Some a);
     do _ <- delete_object (Some b);
     ret result) s1.
Proof.
  intros Hq Htable Hdim. unfold basic, SetLogHandler.
  rewrite !bind_modify. rewrite words_txt_not_empty. cbn [negb].
  remember (set_log_handler (Some Trap) (set_calls [] s)) as s0 eqn:Hs0.
  assert (calls s0 = []) as Hc by (by subst s0).
  assert (trapped_since s s0) as HI.
  { subst s0. unfold trapped_since. simpl. repeat split.
    exists []. by rewrite app_nil_r, append_nil_r. }
  clear Hs0.
  set (post := fun r : Res string * State =>
    exists s1 a b,
      calls s1 = session_trace E wavfile datadir /\
      trapped_since s s1 /\
      r = (do result <- extract E (Some {| sym_addr := b; symbols := table |})
                          (best_path_words E (session_trace E wavfile datadir)) "";
           do _ <- delete_object (Some a);
           do _ <- delete_object (Some b);
           ret result) s1).
  match goal with |- exists s1 a b, _ /\ _ /\ ?x = _ => change (post x) end.
  do 11 quiet_ecall Hq.
  eapply (step_quiet (trapped_since s));
    [ apply traces_read_fst | by apply never_throws_read_fst
    | apply preserves_read_fst;
        [apply trapped_since_stable | apply trapped_since_alloc]
    | assumption | intros decode_fst ? _; quiet_facts ].
  eapply (step_quiet (trapped_since s));
    [ by apply traces_word_syms_table | by eapply never_throws_word_syms
    | apply preserves_word_syms;
        [apply trapped_since_stable | apply trapped_since_alloc]
    | assumption | intros word_syms ? [b ->]; quiet_facts ].
  do 7 quiet_ecall Hq.
  eapply (step_quiet (trapped_since s));
    [ by apply traces_feed_loop | by apply never_throws_feed_loop
    | apply preserves_feed_loop, trapped_since_stable
    | assumption | intros ? ? _; quiet_facts ].
  do 5 quiet_ecall Hq.
  match goal with
  | Hc : calls ?s1 = _, HI : trapped_since s ?s1 |- _ =>
      assert (calls s1 = session_trace E wavfile datadir) as Hsession
        by (rewrite Hc; unfold session_trace; rewrite <- !app_assoc;
            reflexivity);
      unfold post; exists s1, decode_fst, b;
      split; [exact Hsession |]; split; [exact HI |];
      unfold bind at 1, gets at 1; cbv beta iota; rewrite Hsession;
      reflexivity
  end.
Qed.

(** The arguments [PyArg_ParseTuple] hands over hold no NUL byte. *)
Lemma parsed_arguments_nul_free args wavfile datadir :
  PyArg_ParseTuple_ss args = Some (wavfile, datadir) ->
  nul_free wavfile /\ nul_free datadir.
Proof.
  unfold PyArg_ParseTuple_ss, nul_free. intros H.
  destruct args as [|[a| |] [|[b| |] [|? ?]]]; try discriminate.
  destruct (String.eqb (c_str a) a) eqn:Ha; [| discriminate].
  destruct (String.eqb (c_str b) b) eqn:Hb; [| discriminate].
  injection H as <- <-.
  by apply String.eqb_eq in Ha, Hb.
Qed.

Lemma nul_free_cons (c : Ascii.ascii) (a : string) :
  c <> Ascii.zero -> nul_free a -> nul_free (String c a).
Proof.
  unfold nul_free. intros Hc Ha. simpl.
  apply Ascii.eqb_neq in Hc. by rewrite Hc, Ha.
Qed.

Lemma nul_free_pretty_N_go (x : N) (a : string) :
  nul_free a -> nul_free (pretty_N_go x a).
Proof.
  revert a. induction (N.lt_wf_0 x) as [x _ IH]; intros a Ha.
  assert (x = 0 \/ 0 < x)%N as [->|Hx] by lia.
  - by rewrite pretty_N_go_0.
  - rewrite pretty_N_go_step by done. apply IH; [by apply N.div_lt |].
    apply nul_free_cons; [| done].
    unfold pretty_N_char. by repeat case_match.
Qed.

(** A word id in decimal holds no NUL byte. *)
Lemma nul_free_pretty_Z (w : Z) : nul_free (pretty w).
Proof.
  assert (forall p : positive, nul_free (pretty p)) as Hpos.
  { intros p. unfold pretty, pretty_positive, pretty, pretty_N.
    case_decide; [done |]. by apply nul_free_pretty_N_go. }
  destruct w as [|p|p]; [done | apply Hpos |].
  change (pretty (Z.neg p)) with ("-" +:+ pretty p).
  apply nul_free_app; [done | apply Hpos].
Qed.

Lemma nul_free_not_in_table (w : Z) : nul_free (not_in_table w).
Proof.
  unfold not_in_table.
  apply nul_free_app; [done |].
  apply nul_free_app; [apply nul_free_pretty_Z | done].
Qed.

Lemma log_message_trapped s0 s1 (m : LogMessage) :
  trapped_since s0 s1 ->
  trapped_since s0 (log_message s1 m) /\
  (severity m.1 = kError -> errlog (log_message s1 m) = errlog s1 +:+ c_str m.2).
Proof.
  intros H. split; [by apply trapped_since_stable |].
  destruct H as (Hh & _). unfold log_message. simpl. rewrite Hh.
  unfold trap. simpl. by intros ->.
Qed.

(** ** Decode, end to end *)

(** When no library call throws, the symbol table can be read, every
    word of the best path has a display string and the text is valid
    UTF-8, [decode] returns the display strings of the best path, in
    path order, each followed by one space (up to its first NUL byte, if
    any), after all the calls of the session; the heap,
    [std::cerr] and the error indicator are as at entry. *)
Theorem decode_returns_the_best_path
    (E : Env) (args : list PyObject) (wavfile datadir : string)
    (table : gmap Z string) (s : State) :
  PyArg_ParseTuple_ss args = Some (wavfile, datadir) ->
  quiet_library E ->
  symbol_file E (datadir +:+ "/words.txt") = Some table ->
  Dim (utterance E wavfile) <= INT32_MAX ->
  let words := best_path_words E (session_trace E wavfile datadir) in
  Forall (fun w => Find table w <> "") words ->
  utf8_error E (c_str (transcript table words)) = None ->
  let r := decode E args s in
  r.1 = Ret (Some (PyUnicode (c_str (transcript table words)))) /\
  calls r.2 = session_trace E wavfile datadir /\
  heap r.2 = heap s /\ cerr r.2 = cerr s /\ py_err r.2 = py_err s.
Proof.
  intros Hargs Hq Htable Hdim words Hwords Hutf r. subst r.
  destruct (basic_reaches_extraction E wavfile datadir table s Hq Htable Hdim)
    as (s1 & a & b & Hc & HI & Hbasic).
  fold words in Hbasic.
  assert (exists s2, basic E wavfile datadir s = (Ret (transcript table words), s2)
                     /\ calls s2 = calls s1 /\ cerr s2 = cerr s1
                     /\ py_err s2 = py_err s1) as (s2 & Hb & Hc2 & Hcerr2 & Hpy2).
  { rewrite Hbasic. unfold bind at 1.
    rewrite (extract_all_found E {| sym_addr := b; symbols := table |})
      by exact Hwords.
    simpl. rewrite append_nil_l. eexists. split; [reflexivity |]. by repeat split. }
  pose proof (basic_heap E wavfile datadir s) as Hheap.
  rewrite (decode_parsed _ _ _ _ _ Hargs).
  rewrite Hb in *. rewrite Hutf. simpl in *.
  destruct HI as (_ & Hcerr & Hpy & _).
  repeat split; congruence.
Qed.

Lemma decode_returns_the_best_path_witness :
  let r := decode Demo.good Demo.args boot in
  r.1 = Ret (Some (PyUnicode (c_str (transcript Demo.vocabulary [1; 2])))) /\
  calls r.2 = session_trace Demo.good "utt.wav" "model" /\
  heap r.2 = heap boot /\ cerr r.2 = cerr boot /\ py_err r.2 = py_err boot.
Proof.
  apply (decode_returns_the_best_path Demo.good Demo.args "utt.wav" "model"
           Demo.vocabulary boot).
  - reflexivity.
  - intros h c. reflexivity.
  - reflexivity.
  - vm_compute. discriminate.
  - repeat constructor; vm_compute; discriminate.
  - reflexivity.
Defined.

(** When no library call throws and the table can be read but the best
    path holds a word without a display string, [decode] returns NULL;
    the sink then holds its content at entry, what the library logged
    as errors during the call, and the text naming the first such word
    of the path; when that is valid UTF-8 the error is a RuntimeError
    with the sink as its message, otherwise it is the error the
    interpreter leaves for a message it cannot decode; [std::cerr] gets
    the what() text of the exception, all the calls of the session were
    made, and the graph and the table are still allocated. *)
Theorem decode_reports_the_first_unknown_word
    (E : Env) (args : list PyObject) (wavfile datadir : string)
    (table : gmap Z string) (pre post : list Z) (w : Z) (s : State) :
  PyArg_ParseTuple_ss args = Some (wavfile, datadir) ->
  quiet_library E ->
  symbol_file E (datadir +:+ "/words.txt") = Some table ->
  Dim (utterance E wavfile) <= INT32_MAX ->
  best_path_words E (session_trace E wavfile datadir) = pre ++ w :: post ->
  Forall (fun v => Find table v <> "") pre ->
  Find table w = "" ->
  nul_free (errlog s) ->
  let r := decode E args s in
  let a := fresh (heap s) in
  let b := fresh ({[a]} ∪ heap s) in
  r.1 = Ret None /\
  (exists l,
     emitted r.2 = emitted s ++ l ++ [({| severity := kError |}, not_in_table w)] /\
     errlog r.2 = (errlog s +:+ retained l) +:+ not_in_table w /\
     py_err r.2 =
     Some (match utf8_error E ((errlog s +:+ retained l) +:+ not_in_table w) with
           | None =>
               (PyExc_RuntimeError, (errlog s +:+ retained l) +:+ not_in_table w)
           | Some _ =>
               undecodable E PyExc_RuntimeError
                 ((errlog s +:+ retained l) +:+ not_in_table w)
           end)) /\
  cerr r.2 = cerr s +:+ c_str (fatal_what E (not_in_table w)) /\
  calls r.2 = session_trace E wavfile datadir /\
  heap r.2 = {[b]} ∪ ({[a]} ∪ heap s).
Proof.
  intros Hargs Hq Htable Hdim Hwords Hpre Hw Hnul r a b. subst r.
  destruct (basic_reaches_extraction E wavfile datadir table s Hq Htable Hdim)
    as (s1 & a' & b' & Hc & HI & Hbasic).
  rewrite Hwords in Hbasic.
  set (m := ({| severity := kError |}, not_in_table w) : LogMessage).
  assert (basic E wavfile datadir s =
          (Throw (std_exception (fatal_what E (not_in_table w))),
           log_message s1 m)) as Hb.
  { rewrite Hbasic. unfold bind at 1.
    by rewrite (extract_first_miss E {| sym_addr := b'; symbols := table |}). }
  pose proof (basic_heap_exact E wavfile datadir s) as Hheap.
  rewrite (decode_parsed _ _ _ _ _ Hargs).
  rewrite Hb in *. cbv zeta in Hheap. destruct Hheap as (_ & _ & Hheap).
  destruct (log_message_trapped s s1 m HI) as [HI' Hlog].
  specialize (Hlog eq_refl).
  assert (emitted (log_message s1 m) = emitted s1 ++ [m]) as Hem.
  { unfold log_message, trap. destruct HI as (Hh & _). simpl. by rewrite Hh. }
  destruct HI as (_ & _ & _ & l & Hl & Hs1).
  destruct HI' as (_ & Hcerr & _).
  pose proof (calls_log_message s1 m) as Hcalls.
  simpl.
  split; [done |]. split; [| split; [by rewrite Hcerr | split]].
  - exists l. split; [by rewrite Hem, Hl, <- app_assoc |].
    assert (errlog (log_message s1 m)
            = (errlog s +:+ retained l) +:+ not_in_table w) as Hfull.
    { rewrite Hlog, Hs1. change (c_str m.2) with (c_str (not_in_table w)).
      by rewrite (nul_free_not_in_table w). }
    rewrite Hfull.
    by rewrite (nul_free_app _ _
                  (nul_free_app _ _ Hnul (nul_free_retained l))
                  (nul_free_not_in_table w)).
  - by rewrite Hcalls.
  - apply Hheap. rewrite Hcalls, Hc. unfold session_trace. listed.
Qed.

Lemma decode_reports_the_first_unknown_word_witness :
  let r := decode Demo.mismatch Demo.args boot in
  r.1 = Ret None /\
  (exists l,
     emitted r.2 = emitted boot ++ l ++ [({| severity := kError |}, not_in_table 4)] /\
     errlog r.2 = (errlog boot +:+ retained l) +:+ not_in_table 4 /\
     py_err r.2 =
     Some (PyExc_RuntimeError, (errlog boot +:+ retained l) +:+ not_in_table 4)) /\
  cerr r.2 = cerr boot +:+ c_str (fatal_what Demo.mismatch (not_in_table 4)) /\
  calls r.2 = session_trace Demo.mismatch "utt.wav" "model" /\
  heap r.2 = {[fresh ({[fresh (heap boot)]} ∪ heap boot)]}
             ∪ ({[fresh (heap boot)]} ∪ heap boot).
Proof.
  apply (decode_reports_the_first_unknown_word Demo.mismatch Demo.args
           "utt.wav" "model" Demo.vocabulary [1] [] 4 boot).
  - reflexivity.
  - intros h c. reflexivity.
  - reflexivity.
  - vm_compute. discriminate.
  - reflexivity.
  - repeat constructor; vm_compute; discriminate.
  - reflexivity.
  - reflexivity.
Defined.

(** [basic] when no library call throws and the table cannot be read:
    it stops at line 101, after the first thirteen calls of the session,
    with the message logged as an error. *)
Lemma basic_stops_at_symbol_table (E : Env) (wavfile datadir : string)
    (s : State) :
  quiet_library E ->
  symbol_file E (datadir +:+ "/words.txt") = None ->
  let msg := "Could not read symbol table from file " +:+ (datadir +:+ "/words.txt") in
  exists s1,
    calls s1 = take 13 (session_trace E wavfile datadir) /\
    trapped_since s s1 /\
    basic E wavfile datadir s =
    (Throw (std_exception (fatal_what E msg)),
     log_message s1 ({| severity := kError |}, msg)).
Proof.
  intros Hq Htable msg. unfold basic, SetLogHandler.
  rewrite !bind_modify. rewrite words_txt_not_empty. cbn [negb].
  remember (set_log_handler (Some Trap) (set_calls [] s)) as s0 eqn:Hs0.
  assert (calls s0 = []) as Hc by (by subst s0).
  assert (trapped_since s s0) as HI.
  { subst s0. unfold trapped_since. simpl. repeat split.
    exists []. by rewrite app_nil_r, append_nil_r. }
  clear Hs0.
  set (post := fun r : Res string * State =>
    exists s1,
      calls s1 = take 13 (session_trace E wavfile datadir) /\
      trapped_since s s1 /\
      r = (Throw (std_exception (fatal_what E msg)),
           log_message s1 ({| severity := kError |}, msg))).
  match goal with |- exists s1, _ /\ _ /\ ?x = _ => change (post x) end.
  do 11 quiet_ecall Hq.
  eapply (step_quiet (trapped_since s));
    [ apply traces_read_fst | by apply never_throws_read_fst
    | apply preserves_read_fst;
        [apply trapped_since_stable | apply trapped_since_alloc]
    | assumption | intros decode_fst ? _; quiet_facts ].
  unfold read_text. rewrite Htable. rewrite !bind_assoc.
  quiet_ecall Hq.
  match goal with
  | Hc : calls ?s1 = _, HI : trapped_since s ?s1 |- _ =>
      unfold post; exists s1; split; [exact Hc |]; split; [exact HI |];
      reflexivity
  end.
Qed.

(** When no library call throws but the symbol table cannot be read,
    [decode] returns NULL; the sink then holds its content at entry,
    what the library logged as errors during the call, and the text
    naming the file; when that is valid UTF-8 the error is a
    RuntimeError with the sink as its message, otherwise it is the error
    the interpreter leaves for a message it cannot decode; the wav file
    is never opened, and the decoding graph is still allocated. *)
Theorem decode_reports_an_unreadable_symbol_table
    (E : Env) (args : list PyObject) (wavfile datadir : string) (s : State) :
  PyArg_ParseTuple_ss args = Some (wavfile, datadir) ->
  quiet_library E ->
  symbol_file E (datadir +:+ "/words.txt") = None ->
  nul_free (errlog s) ->
  let r := decode E args s in
  let msg := "Could not read symbol table from file " +:+ (datadir +:+ "/words.txt") in
  r.1 = Ret None /\
  (exists l,
     emitted r.2 = emitted s ++ l ++ [({| severity := kError |}, msg)] /\
     errlog r.2 = (errlog s +:+ retained l) +:+ msg /\
     py_err r.2 =
     Some (match utf8_error E ((errlog s +:+ retained l) +:+ msg) with
           | None => (PyExc_RuntimeError, (errlog s +:+ retained l) +:+ msg)
           | Some _ =>
               undecodable E PyExc_RuntimeError ((errlog s +:+ retained l) +:+ msg)
           end)) /\
  cerr r.2 = cerr s +:+ c_str (fatal_what E msg) /\
  calls r.2 = take 13 (session_trace E wavfile datadir) /\
  heap r.2 = {[fresh (heap s)]} ∪ heap s.
Proof.
  intros Hargs Hq Htable Hnul r msg. subst r.
  destruct (basic_stops_at_symbol_table E wavfile datadir s Hq Htable)
    as (s1 & Hc & HI & Hb).
  fold msg in Hb.
  set (m := ({| severity := kError |}, msg) : LogMessage) in *.
  assert (nul_free msg) as Hmsg.
  { destruct (parsed_arguments_nul_free _ _ _ Hargs) as [_ Hd].
    apply nul_free_app; [done |]. by apply nul_free_app. }
  pose proof (basic_heap_exact E wavfile datadir s) as Hheap.
  rewrite (decode_parsed _ _ _ _ _ Hargs).
  rewrite Hb in *. cbv zeta in Hheap. destruct Hheap as (_ & Hheap & _).
  destruct (log_message_trapped s s1 m HI) as [HI' Hlog].
  specialize (Hlog eq_refl).
  assert (emitted (log_message s1 m) = emitted s1 ++ [m]) as Hem.
  { unfold log_message, trap. destruct HI as (Hh & _). simpl. by rewrite Hh. }
  destruct HI as (_ & _ & _ & l & Hl & Hs1).
  destruct HI' as (_ & Hcerr & _).
  pose proof (calls_log_message s1 m) as Hcalls.
  simpl.
  split; [done |]. split; [| split; [by rewrite Hcerr | split]].
  - exists l. split; [by rewrite Hem, Hl, <- app_assoc |].
    assert (errlog (log_message s1 m) = (errlog s +:+ retained l) +:+ msg)
      as Hfull.
    { rewrite Hlog, Hs1. change (c_str m.2) with (c_str msg). by rewrite Hmsg. }
    rewrite Hfull.
    by rewrite (nul_free_app _ _
                  (nul_free_app _ _ Hnul (nul_free_retained l)) Hmsg).
  - by rewrite Hcalls.
  - apply Hheap; rewrite Hcalls, Hc; unfold session_trace; cbn [take app].
    + listed.
    + not_listed.
Qed.

Lemma decode_reports_an_unreadable_symbol_table_witness :
  let E := Demo.no_vocabulary in
  let r := decode E Demo.args boot in
  let msg := "Could not read symbol table from file model/words.txt" in
  r.1 = Ret None /\
  (exists l,
     emitted r.2 = emitted boot ++ l ++ [({| severity := kError |}, msg)] /\
     errlog r.2 = (errlog boot +:+ retained l) +:+ msg /\
     py_err r.2 = Some (PyExc_RuntimeError, (errlog boot +:+ retained l) +:+ msg)) /\
  cerr r.2 = cerr boot +:+ c_str (fatal_what E msg) /\
  calls r.2 = take 13 (session_trace E "utt.wav" "model") /\
  heap r.2 = {[fresh (heap boot)]} ∪ heap boot.
Proof.
  apply (decode_reports_an_unreadable_symbol_table
           Demo.no_vocabulary Demo.args "utt.wav" "model" boot).
  - reflexivity.
  - intros h c. reflexivity.
  - reflexivity.
  - reflexivity.
Defined.
